(** * predict_model.py: the inference pipeline of the prognostic model

    A shallow embedding of [predict_on_new_data] (src/predict_model.py).
    The pandas table is a record of a row count and named columns, the
    joblib bundle is a record, and the calls into scikit-learn, lifelines
    and the spreadsheet/CSV layer are kept visible as events of a small
    writer-and-error monad, so that "is invoked", "is computed" and "fails
    before" can be stated.  Floating-point numbers are idealised as
    rationals. *)

From Stdlib Require Import List String Ascii Bool Arith ZArith QArith Lia.
From Stdlib Require Import Sorted Permutation Lqa.
Import ListNotations.
Local Open Scope string_scope.
Local Open Scope list_scope.

(** ** Cells and columns *)

(** A cell of a pandas column: the missing marker [np.nan], a number, or a
    text value. *)
Inductive cell : Type :=
| NaN : cell
| Num : Q -> cell
| Str : string -> cell.

Definition isna (c : cell) : bool :=
  match c with NaN => true | _ => false end.

(** [Series.isna().any()] *)
Definition has_na (data : list cell) : bool := existsb isna data.

(** [Series.fillna(v)] *)
Definition fillna (v : Q) (data : list cell) : list cell :=
  map (fun c => match c with NaN => Num v | _ => c end) data.

Definition minus_one : Q := Qmake (-1) 1.

(** Python's [==] on two cell values; [np.nan] equals nothing. *)
Definition cell_eqb (a b : cell) : bool :=
  match a, b with
  | Num x, Num y => Qeq_bool x y
  | Str s, Str t => String.eqb s t
  | _, _ => false
  end.

(** Whether a cell is found under a key of a mapping by [Series.map]: the
    values are compared as by [==], and a missing cell is found under a
    NaN key. *)
Definition key_eqb (c k : cell) : bool :=
  match c, k with
  | NaN, NaN => true
  | _, _ => cell_eqb c k
  end.

(** ** The table *)

(** A DataFrame: its index (only the number of rows matters here, the
    script never touches the index) and its labelled columns in order. *)
Record DataFrame : Type := mkFrame {
  nrows : nat;
  columns : list (string * list cell)
}.

Definition names (t : DataFrame) : list string := map fst (columns t).

(** [col in new_data.columns] *)
Definition has_column (t : DataFrame) (col : string) : bool :=
  existsb (String.eqb col) (names t).

(** The column of a label, for labels that occur once.  pandas answers a
    frame rather than a column for a label that occurs twice; the
    statements that depend on the difference take the labels distinct. *)
Fixpoint lookup_column (cols : list (string * list cell)) (col : string)
  : option (list cell) :=
  match cols with
  | [] => None
  | (n, d) :: rest => if String.eqb col n then Some d else lookup_column rest col
  end.

(** [new_data[col]] *)
Definition column (t : DataFrame) (col : string) : option (list cell) :=
  lookup_column (columns t) col.

(** [new_data[col] = data]: overwrite the column of that label, or append a
    new one at the end. *)
Definition set_column (t : DataFrame) (col : string) (data : list cell)
  : DataFrame :=
  if has_column t col
  then mkFrame (nrows t)
         (map (fun nd => if String.eqb col (fst nd) then (fst nd, data) else nd)
              (columns t))
  else mkFrame (nrows t) (columns t ++ [(col, data)]).

(** [new_data[[c1; ...; ck]]]: the sub-table of the listed columns, in the
    listed order; a label that is absent contributes nothing (the script
    only ever selects labels it has checked). *)
Fixpoint select_columns (cols : list (string * list cell)) (wanted : list string)
  : list (string * list cell) :=
  match wanted with
  | [] => []
  | n :: rest =>
      match lookup_column cols n with
      | Some d => (n, d) :: select_columns cols rest
      | None => select_columns cols rest
      end
  end.

Definition select (t : DataFrame) (wanted : list string) : DataFrame :=
  mkFrame (nrows t) (select_columns (columns t) wanted).

(** Every column has one cell per row. *)
Definition well_formed (t : DataFrame) : Prop :=
  Forall (fun nd => List.length (snd nd) = nrows t) (columns t).

(** ** Errors and events *)

(** The exceptions that can end a run. *)
Inductive error : Type :=
| MissingFeatures (missing_cols : list string)  (* the ValueError of line 39 *)
| KeyError (col : string)                       (* a label that is not a column *)
| LengthMismatch (col : string)                 (* assigned values do not fit the index *)
| ImputerError (col : string)                   (* raised inside [transform] *)
| ModelError                                    (* raised inside [predict_partial_hazard] *)
| BinLabelError                                 (* qcut: labels do not fit the bin edges *)
| NotNumeric                                    (* arithmetic on a text cell *)
| ConcordanceError.                             (* raised inside [concordance_index] *)

Inductive imputer_kind : Type := Numeric | Categorical.

(** The calls that leave the script. *)
Inductive event : Type :=
| EvTransform (k : imputer_kind) (col : string) (data : list cell)
| EvPredict (X : DataFrame)
| EvConcordance (event_times predicted_scores event_observed : list cell)
| EvReport (c_index : Q)
| EvToCsv (path : string) (t : DataFrame).

(** A computation: the events it produced so far and how it ended. *)
Definition M (A : Type) : Type := (list event * (error + A))%type.

Definition ret {A} (a : A) : M A := ([], inr a).
Definition raise {A} (e : error) : M A := ([], inl e).
Definition emit (ev : event) : M unit := ([ev], inr tt).

Definition bind {A B} (m : M A) (f : A -> M B) : M B :=
  match m with
  | (l, inl e) => (l, inl e)
  | (l, inr a) => (l ++ fst (f a), snd (f a))
  end.

Notation "x <- m ;; k" := (bind m (fun x => k))
  (at level 61, m at next level, right associativity).
Notation "m ;;; k" := (bind m (fun _ => k))
  (at level 61, right associativity).

Definition trace {A} (m : M A) : list event := fst m.
Definition outcome {A} (m : M A) : error + A := snd m.

(** What a library call returned, or the exception it raised. *)
Definition lift {A} (e : error) (r : option A) : M A :=
  match r with Some a => ret a | None => raise e end.

(** [new_data[col]] as a step: a KeyError when the label is unknown. *)
Definition get_column (t : DataFrame) (col : string) : M (list cell) :=
  lift (KeyError col) (column t col).

(** Assignment of computed values to a column: pandas refuses values whose
    length is not the length of the index. *)
Definition assign (t : DataFrame) (col : string) (data : list cell)
  : M DataFrame :=
  if Nat.eqb (List.length data) (nrows t) then ret (set_column t col data)
  else raise (LengthMismatch col).

(** ** The model bundle and the libraries *)

(** A fitted [SimpleImputer].  [transform col data] stands for
    [imputer.transform(new_data[[col]])], the call on the one-column table
    of label [col]: the single column of the array it returns, or [None]
    when the call raises. *)
Record Imputer : Type := mkImputer {
  transform : string -> list cell -> option (list cell)
}.

(** A fitted [CoxPHFitter]: one score per row of the table it is given
    ([None] inside the list is a NaN score), or [None] when it raises. *)
Record CoxModel : Type := mkCox {
  predict_partial_hazard : DataFrame -> option (list (option Q))
}.

(** The dictionary loaded from the pickle file (lines 18-26).  The manual
    mappings are kept in insertion order, the order [.items()] walks them
    in; a Python dict has each key once. *)
Record Bundle : Type := mkBundle {
  best_features : list string;
  pure_numeric_features : list string;
  categorical_features : list string;
  manual_mappings : list (string * list (cell * Q));
  imputer_numeric : Imputer;
  imputer_categorical : Imputer;
  cox_model : CoxModel
}.

(** The two library routines whose result depends on more than the shape
    of the data: the number parser behind [pd.to_numeric] and lifelines'
    [concordance_index] ([None] when it raises). *)
Record Library : Type := mkLibrary {
  parse_number : string -> option Q;
  concordance_index : list cell -> list cell -> list cell -> option Q
}.

(** ** Pandas operations used by the script *)

(** Line 51. The fourth token is the full-width question mark U+FF1F,
    three bytes in UTF-8. *)
Definition fullwidth_question_mark : string :=
  String (ascii_of_nat 239) (String (ascii_of_nat 188)
    (String (ascii_of_nat 159) EmptyString)).

Definition missing_values : list string :=
  ["NA"; "/"; "unknown"; fullwidth_question_mark; "nan"; "NaN"; ""].

Definition replace_cell (c : cell) : cell :=
  match c with
  | Str s => if existsb (String.eqb s) missing_values then NaN else c
  | _ => c
  end.

Definition map_cells (f : list cell -> list cell) (t : DataFrame) : DataFrame :=
  mkFrame (nrows t) (map (fun nd => (fst nd, f (snd nd))) (columns t)).

(** [new_data.replace(missing_values, np.nan)] *)
Definition replace (t : DataFrame) : DataFrame := map_cells (map replace_cell) t.

(** [pd.to_numeric(..., errors='coerce')], cell by cell. *)
Definition to_numeric_cell (lib : Library) (c : cell) : cell :=
  match c with
  | Str s => match parse_number lib s with Some q => Num q | None => NaN end
  | _ => c
  end.

Definition to_numeric (lib : Library) (data : list cell) : list cell :=
  map (to_numeric_cell lib) data.

(** The code [Series.map(mapping)] finds for a cell, on a dict given by
    its items. *)
Fixpoint dict_get (mapping : list (cell * Q)) (c : cell) : option Q :=
  match mapping with
  | [] => None
  | (k, v) :: rest => if key_eqb c k then Some v else dict_get rest c
  end.

(** [Series.map(mapping)]: the code of a key, NaN for anything else. *)
Definition map_dict (mapping : list (cell * Q)) (data : list cell) : list cell :=
  map (fun c => match dict_get mapping c with Some v => Num v | None => NaN end)
      data.

(** [new_data[col] = f(new_data[col])] for a cell-wise [f]; the script only
    does this for a label it has just found among the columns. *)
Definition update_column (t : DataFrame) (col : string)
    (f : list cell -> list cell) : DataFrame :=
  match column t col with
  | Some data => set_column t col (f data)
  | None => t
  end.

(** ** Quantile binning *)

Definition Qlt_bool (x y : Q) : bool := negb (Qle_bool y x).

Fixpoint insert_sorted (x : Q) (l : list Q) : list Q :=
  match l with
  | [] => [x]
  | y :: rest => if Qle_bool x y then x :: l else y :: insert_sorted x rest
  end.

Definition sort_values (l : list Q) : list Q := fold_right insert_sorted [] l.

Fixpoint dropna (x : list (option Q)) : list Q :=
  match x with
  | [] => []
  | Some v :: rest => v :: dropna rest
  | None :: rest => dropna rest
  end.

(** [Series.quantile(k/q)] with pandas' default linear interpolation, on
    the sorted values: position [(n-1)*k/q], interpolated between its two
    neighbours.  The interpolation is written in exact arithmetic; pandas
    rounds it to binary64, so an inner edge can differ from this one by a
    rounding error (the first and the last edge cannot, their weight being
    zero). *)
Definition quantile (sorted : list Q) (q k : nat) : Q :=
  let pos := ((List.length sorted - 1) * k)%nat in
  let lo := (pos / q)%nat in
  let frac := Qmake (Z.of_nat (pos mod q)) (Pos.of_nat q) in
  let a := nth lo sorted 0%Q in
  let b := nth (S lo) sorted a in
  Qred (a + (b - a) * frac).

(** [algos.unique]: first occurrences, in order. *)
Fixpoint unique (l : list Q) : list Q :=
  match l with
  | [] => []
  | x :: rest => x :: filter (fun y => negb (Qeq_bool x y)) (unique rest)
  end.

(** [bins.searchsorted(v, side='left')]: how many edges lie strictly below. *)
Definition searchsorted_left (bins : list Q) (v : Q) : nat :=
  List.length (filter (fun e => Qlt_bool e v) bins).

(** The bin edges [pd.qcut(x, q, duplicates='drop')] ends up with. *)
Definition qcut_bins (x : list (option Q)) (q : nat) : list Q :=
  let bins := map (quantile (sort_values (dropna x)) q) (seq 0 (S q)) in
  let unique_bins := unique bins in
  if (List.length unique_bins <? List.length bins)%nat
     && negb (List.length bins =? 2)%nat
  then unique_bins else bins.

(** [pd.qcut(x, q, labels=labels, duplicates='drop')] for a list of distinct
    labels.  The edges are the quantiles 0, 1/q, ..., 1 of the values that
    are not NaN; with [duplicates='drop'] repeated edges are removed; the
    labels must then be one fewer than the edges that are left, or pandas
    raises "Bin labels must be one fewer than the number of bin edges".
    Each value goes to the interval (edge i-1, edge i] that holds it, the
    lowest edge included. *)
Definition qcut (x : list (option Q)) (q : nat) (labels : list string)
  : error + list cell :=
  let bins := qcut_bins x q in
  if negb (List.length labels =? List.length bins - 1)%nat then inl BinLabelError
  else
    inr (map (fun xi =>
           match xi with
           | None => NaN
           | Some v =>
               let id := if Qeq_bool v (hd 0%Q bins) then 1%nat
                         else searchsorted_left bins v in
               if (id =? List.length bins)%nat || (id =? 0)%nat then NaN
               else Str (nth (id - 1) labels "")
           end) x).

(** [Series.nunique()]: the number of distinct values, NaN not counted. *)
Fixpoint unique_cells (l : list cell) : list cell :=
  match l with
  | [] => []
  | x :: rest => x :: filter (fun y => negb (cell_eqb x y)) (unique_cells rest)
  end.

Definition nunique (data : list cell) : nat :=
  List.length (unique_cells (filter (fun c => negb (isna c)) data)).

Definition score_cell (s : option Q) : cell :=
  match s with Some v => Num v | None => NaN end.

(** The numeric content of a column; [None] when it holds text. *)
Fixpoint as_scores (data : list cell) : option (list (option Q)) :=
  match data with
  | [] => Some []
  | NaN :: rest => option_map (cons None) (as_scores rest)
  | Num v :: rest => option_map (cons (Some v)) (as_scores rest)
  | Str _ :: _ => None
  end.

(** Lines 84-90, on the Risk_Score column of a table of [n] rows. *)
Definition risk_groups (n : nat) (scores : list cell) : M (list cell) :=
  let unique_scores := nunique scores in
  if (3 <=? unique_scores)%nat then
    x <- lift NotNumeric (as_scores scores) ;;
    match qcut x 3 ["Low"; "Medium"; "High"] with
    | inl e => raise e
    | inr g => ret g
    end
  else if (unique_scores =? 2)%nat then
    x <- lift NotNumeric (as_scores scores) ;;
    match qcut x 2 ["Low"; "High"] with
    | inl e => raise e
    | inr g => ret g
    end
  else ret (repeat (Str "Medium") n).

(** ** The binning with the quantile routine left open *)

(** pandas interpolates the quantiles in binary floating point, and the
    result need not be the exact rational that [quantile] gives.  Every
    finite float is a rational number and floats are compared exactly, so
    the rest of the binning does not depend on it: the three definitions
    below are [qcut_bins], [qcut] and [risk_groups] with the routine that
    computes a quantile of the sorted scores as the parameter
    [quantile_of]. *)
Definition qcut_bins_with (quantile_of : list Q -> nat -> nat -> Q)
    (x : list (option Q)) (q : nat) : list Q :=
  let bins := map (quantile_of (sort_values (dropna x)) q) (seq 0 (S q)) in
  let unique_bins := unique bins in
  if (List.length unique_bins <? List.length bins)%nat
     && negb (List.length bins =? 2)%nat
  then unique_bins else bins.

Definition qcut_with (quantile_of : list Q -> nat -> nat -> Q)
    (x : list (option Q)) (q : nat) (labels : list string)
  : error + list cell :=
  let bins := qcut_bins_with quantile_of x q in
  if negb (List.length labels =? List.length bins - 1)%nat then inl BinLabelError
  else
    inr (map (fun xi =>
           match xi with
           | None => NaN
           | Some v =>
               let id := if Qeq_bool v (hd 0%Q bins) then 1%nat
                         else searchsorted_left bins v in
               if (id =? List.length bins)%nat || (id =? 0)%nat then NaN
               else Str (nth (id - 1) labels "")
           end) x).

Definition risk_groups_with (quantile_of : list Q -> nat -> nat -> Q)
    (n : nat) (scores : list cell) : M (list cell) :=
  let unique_scores := nunique scores in
  if (3 <=? unique_scores)%nat then
    x <- lift NotNumeric (as_scores scores) ;;
    match qcut_with quantile_of x 3 ["Low"; "Medium"; "High"] with
    | inl e => raise e
    | inr g => ret g
    end
  else if (unique_scores =? 2)%nat then
    x <- lift NotNumeric (as_scores scores) ;;
    match qcut_with quantile_of x 2 ["Low"; "High"] with
    | inl e => raise e
    | inr g => ret g
    end
  else ret (repeat (Str "Medium") n).

(** ** The pipeline *)

Definition OS_Time : string := "OS_Time".
Definition Event : string := "Event".
Definition ECOG_Score : string := "ECOG_Score".
Definition Risk_Score : string := "Risk_Score".
Definition Risk_Group : string := "Risk_Group".

(** [os.path.join(output_dir, name)] *)
Definition path_join (dir name : string) : string :=
  if String.eqb dir "" then name
  else if String.eqb (substring (String.length dir - 1) 1 dir) "/"
       then dir ++ name
       else dir ++ "/" ++ name.

(** [-new_data['Risk_Score']] *)
Fixpoint negate (data : list cell) : option (list cell) :=
  match data with
  | [] => Some []
  | NaN :: rest => option_map (cons NaN) (negate rest)
  | Num v :: rest => option_map (cons (Num (Qopp v))) (negate rest)
  | Str _ :: _ => None
  end.

Section Pipeline.

Variable lib : Library.
Variable b : Bundle.

(** Line 37. *)
Definition missing_cols (new_data : DataFrame) : list string :=
  filter (fun col => negb (has_column new_data col)) (best_features b).

(** Line 45. *)
Definition required_cols : list string := best_features b ++ [OS_Time; Event].

(** Line 46. *)
Definition keep_required (new_data : DataFrame) : DataFrame :=
  select new_data (filter (has_column new_data) required_cols).

(** Lines 54-55. *)
Definition numeric_in_model (new_data : DataFrame) : list string :=
  filter (has_column new_data) (pure_numeric_features b).

Definition categorical_in_model (new_data : DataFrame) : list string :=
  filter (has_column new_data) (categorical_features b).

(** Lines 57-58. *)
Definition coerce_numeric (cols : list string) (new_data : DataFrame)
  : DataFrame :=
  fold_left (fun t col => update_column t col (to_numeric lib)) cols new_data.

(** The body of the loops of lines 60-62 and 64-66. *)
Definition impute_column (k : imputer_kind) (imp : Imputer)
    (t : DataFrame) (col : string) : M DataFrame :=
  data <- get_column t col ;;
  if has_na data then
    emit (EvTransform k col data) ;;;
    filled <- lift (ImputerError col) (transform imp col data) ;;
    assign t col filled
  else ret t.

Fixpoint impute_loop (k : imputer_kind) (imp : Imputer)
    (cols : list string) (t : DataFrame) : M DataFrame :=
  match cols with
  | [] => ret t
  | col :: rest => t' <- impute_column k imp t col ;; impute_loop k imp rest t'
  end.

(** Line 70. *)
Definition apply_mapping (mapping : list (cell * Q)) (data : list cell)
  : list cell :=
  fillna minus_one (map_dict mapping data).

(** Lines 68-70. *)
Definition apply_mappings (mappings : list (string * list (cell * Q)))
    (new_data : DataFrame) : DataFrame :=
  fold_left
    (fun t cm =>
       if has_column t (fst cm)
       then update_column t (fst cm) (apply_mapping (snd cm))
       else t)
    mappings new_data.

(** Line 73. *)
Definition coerce_ecog (data : list cell) : list cell :=
  fillna minus_one (to_numeric lib data).

(** Lines 72-73. *)
Definition ecog_step (new_data : DataFrame) : DataFrame :=
  if has_column new_data ECOG_Score
  then update_column new_data ECOG_Score coerce_ecog
  else new_data.

(** Lines 57-66: coercion and the two imputation loops. *)
Definition impute (t : DataFrame) : M DataFrame :=
  let numeric := numeric_in_model t in
  let categorical := categorical_in_model t in
  let t := coerce_numeric numeric t in
  t <- impute_loop Numeric (imputer_numeric b) numeric t ;;
  impute_loop Categorical (imputer_categorical b) categorical t.

(** Lines 68-73: the mappings and the performance-status column, on the
    table the imputation loops leave. *)
Definition after_imputation (new_data : DataFrame) : DataFrame :=
  ecog_step (apply_mappings (manual_mappings b) new_data).

(** Lines 51-73. *)
Definition preprocess (new_data : DataFrame) : M DataFrame :=
  t <- impute (replace new_data) ;;
  ret (after_imputation t).

(** Lines 80-81. *)
Definition predict (new_data : DataFrame) : M DataFrame :=
  let X := select new_data (best_features b) in
  emit (EvPredict X) ;;;
  risk_scores <- lift ModelError (predict_partial_hazard (cox_model b) X) ;;
  assign new_data Risk_Score (map score_cell risk_scores).

(** Lines 84-90. *)
Definition group (new_data : DataFrame) : M DataFrame :=
  scores <- get_column new_data Risk_Score ;;
  groups <- risk_groups (nrows new_data) scores ;;
  ret (set_column new_data Risk_Group groups).

(** Lines 93-98. *)
Definition validate (new_data : DataFrame) : M unit :=
  if has_column new_data Event && has_column new_data OS_Time then
    times <- get_column new_data OS_Time ;;
    scores <- get_column new_data Risk_Score ;;
    negated <- lift NotNumeric (negate scores) ;;
    observed <- get_column new_data Event ;;
    emit (EvConcordance times negated observed) ;;;
    c_index <- lift ConcordanceError
                 (concordance_index lib times negated observed) ;;
    emit (EvReport c_index)
  else ret tt.

(** Lines 37-90: everything up to the table that will be written. *)
Definition score_table (input : DataFrame) : M DataFrame :=
  match missing_cols input with
  | _ :: _ => raise (MissingFeatures (missing_cols input))
  | [] =>
      t <- preprocess (keep_required input) ;;
      t <- predict t ;;
      group t
  end.

(** Lines 100-108. *)
Definition save (output_dir : string) (new_data : DataFrame) : M DataFrame :=
  emit (EvToCsv (path_join output_dir "predictions_with_risk.csv") new_data) ;;;
  ret new_data.

(** The function of line 14 from line 36 on: the output directory has been
    created (line 15) and the bundle and the spreadsheet have been loaded
    (lines 18-34).  [output_dir] is used for the path of the CSV file
    only. *)
Definition predict_on_new_data (input : DataFrame) (output_dir : string)
  : M DataFrame :=
  t <- score_table input ;;
  validate t ;;;
  save output_dir t.

End Pipeline.

(** ** A small bundle and spreadsheet to run the pipeline on *)

Module Sample.

(** Unsigned decimal integers; everything else does not parse. *)
Fixpoint parse_digits (acc : Z) (s : string) : option Z :=
  match s with
  | EmptyString => Some acc
  | String c rest =>
      let d := nat_of_ascii c in
      if ((48 <=? d) && (d <=? 57))%nat
      then parse_digits (10 * acc + Z.of_nat (d - 48)) rest
      else None
  end.

Definition parse (s : string) : option Q :=
  match s with
  | EmptyString => None
  | _ => option_map inject_Z (parse_digits 0 s)
  end.

Definition lib : Library :=
  mkLibrary parse (fun _ _ _ => Some (Qmake 1 2)).

(** An imputer that fills the missing cells of a column with [stat col]. *)
Definition fill_with (stat : string -> cell) : Imputer :=
  mkImputer (fun col data =>
    Some (map (fun c => match c with NaN => stat col | _ => c end) data)).

Definition add_cell (acc : option Q) (c : cell) : option Q :=
  match acc, c with
  | Some a, Num v => Some (Qred (a + v))
  | _, _ => None
  end.

(** A stand-in for the fitted model: the score of a row is the sum of its
    cells, NaN when one of them is not a number. *)
Definition row_sums (X : DataFrame) : list (option Q) :=
  fold_left
    (fun acc nd => map (fun p => add_cell (fst p) (snd p)) (combine acc (snd nd)))
    (columns X) (repeat (Some 0%Q) (nrows X)).

Definition model : CoxModel := mkCox (fun X => Some (row_sums X)).

Definition bundle : Bundle :=
  mkBundle
    ["Age"; "Stage"; "ECOG_Score"]
    ["Age"]
    ["Stage"]
    [("Stage", [(Str "I", inject_Z 0); (Str "II", inject_Z 1)])]
    (fill_with (fun _ => Num (inject_Z 60)))
    (fill_with (fun _ => Str "II"))
    model.

Definition patients : DataFrame :=
  mkFrame 3
    [("Name", [Str "a"; Str "b"; Str "c"]);
     ("Age", [Num (inject_Z 50); Str "NA"; Str "70"]);
     ("Stage", [Str "I"; Str "unknown"; Str "III"]);
     ("ECOG_Score", [Num (inject_Z 1); Str "x"; NaN]);
     ("OS_Time", [Num (inject_Z 12); Num (inject_Z 30); Num (inject_Z 7)]);
     ("Event", [Num (inject_Z 1); Num (inject_Z 0); Num (inject_Z 1)])].

(** The same spreadsheet for patients without follow-up. *)
Definition new_patients : DataFrame :=
  mkFrame 3 (firstn 4 (columns patients)).


(** The same bundle with the performance status listed among the purely
    numeric features. *)
Definition ecog_numeric_bundle : Bundle :=
  mkBundle
    (best_features bundle)
    ["Age"; "ECOG_Score"]
    (categorical_features bundle)
    (manual_mappings bundle)
    (imputer_numeric bundle)
    (imputer_categorical bundle)
    model.

(** A bundle whose only selected feature is in neither feature list. *)
Definition bare_bundle : Bundle :=
  mkBundle ["Age"] [] [] []
    (imputer_numeric bundle) (imputer_categorical bundle) model.

Definition one_unknown_age : DataFrame :=
  mkFrame 2 [("Age", [Num (inject_Z 50); Str "unknown"])].

(** A bundle with the single numeric feature Age, and six patients of whom
    four have the same age, hence the same score. *)
Definition age_bundle : Bundle :=
  mkBundle ["Age"] ["Age"] [] []
    (imputer_numeric bundle) (imputer_categorical bundle) model.

Definition numbers (l : list Z) : list cell :=
  map (fun z => Num (inject_Z z)) l.

Definition tied_patients : DataFrame :=
  mkFrame 6 [("Age", numbers [1; 1; 1; 1; 2; 3]%Z)].



(** A spreadsheet with the three feature columns and no patient. *)
Definition no_patients : DataFrame :=
  mkFrame 0 [("Age", []); ("Stage", []); ("ECOG_Score", [])].

End Sample.

(** ** Vocabulary for the statements *)

(** The run does not end with the schema error. *)
Definition not_schema {A} (m : M A) : Prop :=
  forall cols, outcome m <> inl (MissingFeatures cols).

(** Every event of the computation satisfies [P]. *)
Definition only_events {A} (P : event -> Prop) (m : M A) : Prop :=
  forall ev, In ev (trace m) -> P ev.

(** A call of an imputer is made on a column with a missing cell, and on a
    column of the feature list the imputer belongs to. *)
Definition imputer_call_ok (b : Bundle) (ev : event) : Prop :=
  match ev with
  | EvTransform k col data =>
      has_na data = true /\ In col (match k with
                                    | Numeric => pure_numeric_features b
                                    | Categorical => categorical_features b
                                    end)
  | _ => True
  end.

(** An imputer whose answer has no missing cell left. *)
Definition imputer_fills (imp : Imputer) : Prop :=
  forall col data filled,
    transform imp col data = Some filled -> has_na filled = false.

(** Every selected feature is handled by some preprocessing step: it is
    in one of the two feature lists, or has a manual mapping, or is the
    performance status. *)
Definition features_covered (b : Bundle) : Prop :=
  forall f, In f (best_features b) ->
    In f (pure_numeric_features b) \/ In f (categorical_features b) \/
    In f (map fst (manual_mappings b)) \/ f = ECOG_Score.

(** No cell of the table is missing. *)
Definition fully_populated (t : DataFrame) : Prop :=
  Forall (fun nd => has_na (snd nd) = false) (columns t).





(** A cell that holds a number. *)
Definition numeric_cell (c : cell) : Prop :=
  match c with Num _ => True | _ => False end.

(** A cell that is not one of the missing-value tokens of line 51. *)
Definition no_token (c : cell) : Prop :=
  match c with Str s => ~ In s missing_values | _ => True end.

(** A cell that is not text. *)
Definition not_text (c : cell) : Prop :=
  match c with Str _ => False | _ => True end.

(** Every cell of every column satisfies [P]. *)
Definition all_cells (P : cell -> Prop) (t : DataFrame) : Prop :=
  Forall (fun nd => Forall P (snd nd)) (columns t).

(** An imputer that does not bring in a missing-value token: on a column
    without one, its answer has none. *)
Definition imputer_token_free (imp : Imputer) : Prop :=
  forall col data filled,
    Forall no_token data ->
    transform imp col data = Some filled -> Forall no_token filled.

(** The interval [pd.qcut] puts a value in, counted from 1, given the
    edges: the expression inside [qcut], named. *)
Definition bin_index (bins : list Q) (v : Q) : nat :=
  if Qeq_bool v (hd 0%Q bins) then 1%nat else searchsorted_left bins v.

(** The place of a label in the order Low, Medium, High. *)
Definition label_rank (label : string) : nat :=
  if String.eqb label "Low" then 0%nat
  else if String.eqb label "Medium" then 1%nat
  else 2%nat.

(** What the binning needs of the quantile routine: of sorted scores, the
    quantile 0 is the first and the quantile 1 is the last (the
    interpolation weight is then zero, in floating point as well). *)
Definition edges_span (quantile_of : list Q -> nat -> nat -> Q) : Prop :=
  forall s q, s <> [] -> q <> 0%nat ->
    quantile_of s q 0%nat == nth 0 s 0 /\
    quantile_of s q q == nth (List.length s - 1) s 0.

(** The computation can only fail with an error that satisfies [P]. *)
Definition fails_only {A} (P : error -> Prop) (m : M A) : Prop :=
  forall e, outcome m = inl e -> P e.

(** The errors that come from outside the script's own bookkeeping: the
    schema check, a library call that raises or returns values of the wrong
    length, and the label check of the binning. *)
Definition external_error (e : error) : Prop :=
  match e with
  | KeyError _ | NotNumeric => False
  | _ => True
  end.

(** The events of the stages before validation: imputer and model calls. *)
Definition scoring_event (ev : event) : Prop :=
  match ev with
  | EvTransform _ _ _ | EvPredict _ => True
  | _ => False
  end.

(** * Properties *)

(** ** The monad *)

Lemma bind_ok {A B} (m : M A) (f : A -> M B) l r :
  bind m f = (l, inr r) ->
  exists l1 a l2, m = (l1, inr a) /\ f a = (l2, inr r) /\ l = l1 ++ l2.
Proof.
  destruct m as [l1 [e | a]]; simpl; intros H.
  - discriminate.
  - exists l1, a, (fst (f a)). inversion H; subst.
    destruct (f a) as [l2 r2]; simpl in *. subst. auto.
Qed.

Lemma bind_ret_l {A B} (a : A) (f : A -> M B) : bind (ret a) f = f a.
Proof. unfold bind, ret. simpl. destruct (f a); reflexivity. Qed.

Lemma bind_raise_l {A B} (e : error) (f : A -> M B) :
  bind (raise e) f = raise e.
Proof. reflexivity. Qed.

Lemma trace_bind {A B} (m : M A) (f : A -> M B) ev :
  In ev (trace (bind m f)) ->
  In ev (trace m) \/ exists a, outcome m = inr a /\ In ev (trace (f a)).
Proof.
  destruct m as [l [e | a]]; unfold trace, outcome; simpl; intros H.
  - auto.
  - apply in_app_or in H. destruct H; eauto.
Qed.



Lemma lift_ok {A} e (r : option A) l a :
  lift e r = (l, inr a) -> r = Some a /\ l = [].
Proof. destruct r; simpl; unfold ret, raise; intros H; inversion H; auto. Qed.

Lemma lift_some {A} e (a : A) : lift e (Some a) = ret a.
Proof. reflexivity. Qed.

Lemma lift_none {A} e : @lift A e None = raise e.
Proof. reflexivity. Qed.

Lemma trace_lift {A} e (r : option A) : trace (lift e r) = [].
Proof. destruct r; reflexivity. Qed.

(** ** Columns of a table *)

Lemma has_column_lookup cols x :
  existsb (String.eqb x) (map fst cols) = true <->
  exists d, lookup_column cols x = Some d.
Proof.
  induction cols as [| [c d] rest IH]; simpl.
  - split; [discriminate | intros [d H]; discriminate].
  - destruct (String.eqb x c); simpl.
    + split; eauto.
    + apply IH.
Qed.

Lemma has_column_true t x :
  has_column t x = true <-> exists d, column t x = Some d.
Proof. apply has_column_lookup. Qed.

Lemma has_column_false t x : has_column t x = false <-> column t x = None.
Proof.
  destruct (has_column t x) eqn:E.
  - apply has_column_true in E. destruct E as [d E]. rewrite E.
    split; discriminate.
  - split; auto. intros _.
    destruct (column t x) eqn:C; auto.
    assert (has_column t x = true) by (apply has_column_true; eauto).
    congruence.
Qed.

Lemma lookup_overwrite cols col data x :
  lookup_column
    (map (fun nd : string * list cell =>
            if String.eqb col (fst nd) then (fst nd, data) else nd) cols) x
  = if String.eqb x col
    then match lookup_column cols x with Some _ => Some data | None => None end
    else lookup_column cols x.
Proof.
  induction cols as [| [c d] rest IH]; simpl.
  - destruct (String.eqb x col); reflexivity.
  - destruct (String.eqb_spec col c) as [-> | Hc]; simpl.
    + destruct (String.eqb_spec x c); auto.
    + destruct (String.eqb_spec x c) as [-> | Hx].
      * destruct (String.eqb_spec c col); [congruence | reflexivity].
      * apply IH.
Qed.

Lemma lookup_append cols col data x :
  lookup_column (cols ++ [(col, data)]) x =
  match lookup_column cols x with
  | Some d => Some d
  | None => if String.eqb x col then Some data else None
  end.
Proof.
  induction cols as [| [c d] rest IH]; simpl; auto.
  destruct (String.eqb x c); auto.
Qed.

Lemma column_set_same t col data :
  column (set_column t col data) col = Some data.
Proof.
  unfold set_column, column. destruct (has_column t col) eqn:E; simpl.
  - rewrite lookup_overwrite, String.eqb_refl.
    apply has_column_true in E. destruct E as [d E]. unfold column in E.
    rewrite E. reflexivity.
  - rewrite lookup_append, String.eqb_refl.
    apply has_column_false in E. unfold column in E. rewrite E. reflexivity.
Qed.

Lemma column_set_other t col data x :
  x <> col -> column (set_column t col data) x = column t x.
Proof.
  intros Hx. unfold set_column, column.
  destruct (has_column t col); simpl.
  - rewrite lookup_overwrite. destruct (String.eqb_spec x col); congruence.
  - rewrite lookup_append. destruct (lookup_column (columns t) x); auto.
    destruct (String.eqb_spec x col); congruence.
Qed.

Lemma nrows_set_column t col data : nrows (set_column t col data) = nrows t.
Proof. unfold set_column. destruct (has_column t col); reflexivity. Qed.

Lemma has_column_set_column t col data x :
  has_column (set_column t col data) x = has_column t x || String.eqb x col.
Proof.
  destruct (String.eqb_spec x col) as [-> | Hx].
  - rewrite orb_true_r. apply has_column_true.
    rewrite column_set_same. eauto.
  - rewrite orb_false_r.
    destruct (has_column t x) eqn:E.
    + apply has_column_true. rewrite column_set_other by auto.
      apply has_column_true; auto.
    + apply has_column_false. rewrite column_set_other by auto.
      apply has_column_false; auto.
Qed.

Lemma well_formed_set_column t col data :
  well_formed t -> List.length data = nrows t ->
  well_formed (set_column t col data).
Proof.
  unfold well_formed, set_column. intros Hwf Hlen.
  destruct (has_column t col); simpl.
  - rewrite Forall_map. eapply Forall_impl; [| exact Hwf].
    intros [c d] H; simpl in *. destruct (String.eqb col c); simpl; auto.
  - apply Forall_app. split; auto.
Qed.

Lemma well_formed_column t col data :
  well_formed t -> column t col = Some data -> List.length data = nrows t.
Proof.
  unfold well_formed, column. induction (columns t) as [| [c d] rest IH];
    simpl; intros Hwf H.
  - discriminate.
  - inversion Hwf; subst. destruct (String.eqb col c).
    + inversion H; subst. auto.
    + auto.
Qed.

(** [update_column] with a cell-wise function. *)
Lemma column_update_same t col f data :
  column t col = Some data ->
  column (update_column t col f) col = Some (f data).
Proof. unfold update_column. intros ->. apply column_set_same. Qed.

Lemma column_update_other t col f x :
  x <> col -> column (update_column t col f) x = column t x.
Proof.
  unfold update_column. intros Hx. destruct (column t col); auto.
  apply column_set_other; auto.
Qed.

Lemma has_column_update t col f x :
  has_column (update_column t col f) x = has_column t x.
Proof.
  unfold update_column. destruct (column t col) eqn:E; auto.
  rewrite has_column_set_column.
  destruct (String.eqb_spec x col) as [-> | Hx].
  - assert (has_column t col = true) by (apply has_column_true; eauto).
    rewrite H. reflexivity.
  - apply orb_false_r.
Qed.

Lemma nrows_update t col f : nrows (update_column t col f) = nrows t.
Proof.
  unfold update_column. destruct (column t col); auto. apply nrows_set_column.
Qed.

Lemma well_formed_update t col f :
  (forall d, List.length (f d) = List.length d) ->
  well_formed t -> well_formed (update_column t col f).
Proof.
  intros Hf Hwf. unfold update_column. destruct (column t col) eqn:E; auto.
  apply well_formed_set_column; auto.
  rewrite Hf. eapply well_formed_column; eauto.
Qed.

(** ** Selecting and rewriting columns *)

Lemma lookup_select cols wanted x :
  lookup_column (select_columns cols wanted) x =
  if existsb (String.eqb x) wanted then lookup_column cols x else None.
Proof.
  induction wanted as [| n rest IH]; simpl; auto.
  destruct (lookup_column cols n) eqn:E; simpl.
  - destruct (String.eqb_spec x n) as [-> | Hx]; simpl; auto.
  - rewrite IH. destruct (String.eqb_spec x n) as [-> | Hx]; simpl; auto.
    rewrite E. destruct (existsb (String.eqb n) rest); reflexivity.
Qed.

Lemma column_select t wanted x :
  column (select t wanted) x =
  if existsb (String.eqb x) wanted then column t x else None.
Proof. apply lookup_select. Qed.

Lemma names_select t wanted :
  names (select t wanted) = filter (has_column t) wanted.
Proof.
  unfold names, select; simpl.
  induction wanted as [| n rest IH]; simpl; auto.
  destruct (has_column t n) eqn:E.
  - apply has_column_true in E. destruct E as [d E]. unfold column in E.
    rewrite E. simpl. f_equal. apply IH.
  - apply has_column_false in E. unfold column in E. rewrite E. apply IH.
Qed.

Lemma lookup_in cols x d :
  lookup_column cols x = Some d -> In (x, d) cols.
Proof.
  induction cols as [| [c e] rest IH]; simpl; [discriminate |].
  destruct (String.eqb_spec x c) as [-> | Hx]; intros H.
  - inversion H; auto.
  - auto.
Qed.

Lemma well_formed_select t wanted :
  well_formed t -> well_formed (select t wanted).
Proof.
  unfold well_formed, select; simpl. intros Hwf.
  induction wanted as [| n rest IH]; simpl; auto.
  destruct (lookup_column (columns t) n) eqn:E; auto.
  constructor; auto. simpl.
  apply lookup_in in E. rewrite Forall_forall in Hwf. apply (Hwf _ E).
Qed.

Lemma lookup_map_cells f cols x :
  lookup_column (map (fun nd : string * list cell => (fst nd, f (snd nd))) cols) x
  = option_map f (lookup_column cols x).
Proof.
  induction cols as [| [c d] rest IH]; simpl; auto.
  destruct (String.eqb x c); auto.
Qed.

Lemma column_replace t x :
  column (replace t) x = option_map (map replace_cell) (column t x).
Proof. apply lookup_map_cells. Qed.

Lemma has_column_replace t x : has_column (replace t) x = has_column t x.
Proof.
  unfold has_column, names, replace, map_cells; simpl.
  rewrite map_map. reflexivity.
Qed.

Lemma well_formed_replace t : well_formed t -> well_formed (replace t).
Proof.
  unfold well_formed, replace, map_cells; simpl. intros H.
  rewrite Forall_map. eapply Forall_impl; [| exact H].
  intros [c d]; simpl. rewrite length_map. auto.
Qed.

(** ** No later step raises the schema error *)

Lemma not_schema_bind {A B} (m : M A) (f : A -> M B) :
  not_schema m -> (forall a, not_schema (f a)) -> not_schema (bind m f).
Proof.
  unfold not_schema, outcome. destruct m as [l [e | a]]; simpl; intros Hm Hf.
  - intros cols H. apply (Hm cols). inversion H. reflexivity.
  - apply Hf.
Qed.

Lemma not_schema_ret {A} (a : A) : not_schema (ret a).
Proof. intros cols; discriminate. Qed.

Lemma not_schema_emit ev : not_schema (emit ev).
Proof. intros cols; discriminate. Qed.

Lemma not_schema_lift {A} e (r : option A) :
  (forall cols, e <> MissingFeatures cols) -> not_schema (lift e r).
Proof.
  intros He cols. destruct r; simpl; [discriminate |].
  intros H. inversion H. eapply He; eauto.
Qed.

Lemma not_schema_assign t col data : not_schema (assign t col data).
Proof.
  unfold assign. intros cols.
  destruct (Nat.eqb (List.length data) (nrows t)); discriminate.
Qed.

Lemma qcut_error x q labels e : qcut x q labels = inl e -> e = BinLabelError.
Proof.
  unfold qcut.
  destruct (negb (List.length labels =? List.length (qcut_bins x q) - 1)%nat);
    intros H; inversion H; reflexivity.
Qed.

Lemma not_schema_qcut x q labels :
  not_schema (match qcut x q labels with
              | inl e => raise e
              | inr g => ret g
              end).
Proof.
  intros cols. destruct (qcut x q labels) eqn:E; [| discriminate].
  apply qcut_error in E. subst. discriminate.
Qed.

Create HintDb schema.

#[local] Hint Resolve not_schema_ret not_schema_emit not_schema_assign
  not_schema_qcut : schema.

Ltac schema_step :=
  repeat first
    [ apply not_schema_bind; [| intros ?]
    | apply not_schema_lift; intros ? ?; discriminate
    | solve [auto with schema] ].

Lemma not_schema_impute_loop k imp cols t :
  not_schema (impute_loop k imp cols t).
Proof.
  revert t. induction cols as [| col rest IH]; intros t; simpl.
  - schema_step.
  - apply not_schema_bind; [| intros ?; apply IH].
    unfold impute_column, get_column. schema_step.
    destruct (has_na a); schema_step.
Qed.

Lemma not_schema_risk_groups n scores : not_schema (risk_groups n scores).
Proof.
  unfold risk_groups.
  destruct (3 <=? nunique scores)%nat; [schema_step |].
  destruct (nunique scores =? 2)%nat; schema_step.
Qed.

Lemma not_schema_validate lib t : not_schema (validate lib t).
Proof.
  unfold validate, get_column.
  destruct (has_column t Event && has_column t OS_Time); schema_step.
Qed.

Lemma not_schema_after_check lib b t output_dir :
  not_schema (t <- (t <- preprocess lib b t ;; t <- predict b t ;; group t) ;;
              validate lib t ;;; save output_dir t).
Proof.
  unfold preprocess, impute, predict, group, save, get_column.
  schema_step; try apply not_schema_impute_loop;
    try apply not_schema_risk_groups; try apply not_schema_validate.
Qed.

(** ** The schema check (lines 37-46) *)

Lemma filter_all {A} (p : A -> bool) (l : list A) :
  filter (fun x => negb (p x)) l = [] -> filter p l = l.
Proof.
  induction l as [| x rest IH]; simpl; auto.
  destruct (p x); simpl; intros H; [f_equal; auto | discriminate].
Qed.

Lemma filter_idem {A} (p : A -> bool) (l : list A) :
  filter p (filter p l) = filter p l.
Proof.
  induction l as [| x rest IH]; simpl; auto.
  destruct (p x) eqn:E; simpl; rewrite ?E, IH; reflexivity.
Qed.

Lemma names_keep_required b input :
  missing_cols b input = [] ->
  names (keep_required b input) =
  best_features b ++ filter (has_column input) [OS_Time; Event].
Proof.
  intros Hm. unfold keep_required, required_cols.
  rewrite names_select, filter_idem, filter_app.
  f_equal. apply filter_all. exact Hm.
Qed.

Lemma column_keep_required b input col :
  In col (names (keep_required b input)) ->
  column (keep_required b input) col = column input col.
Proof.
  unfold keep_required. rewrite names_select, filter_idem.
  intros Hin. rewrite column_select.
  destruct (existsb (String.eqb col)
              (filter (has_column input) (required_cols b))) eqn:E; auto.
  exfalso. assert (existsb (String.eqb col)
              (filter (has_column input) (required_cols b)) = true).
  { apply existsb_exists. exists col. split; auto. apply String.eqb_refl. }
  congruence.
Qed.


(** ** The manual mappings (lines 68-70) *)

Lemma apply_mapping_cells mapping data :
  apply_mapping mapping data =
  map (fun c => match dict_get mapping c with
                | Some code => Num code
                | None => Num minus_one
                end) data.
Proof.
  unfold apply_mapping, fillna, map_dict. rewrite map_map.
  apply map_ext. intros c. destruct (dict_get mapping c); reflexivity.
Qed.



Lemma mapping_step_other (t : DataFrame) (cm : string * list (cell * Q)) x :
  x <> fst cm ->
  column (if has_column t (fst cm)
          then update_column t (fst cm) (apply_mapping (snd cm)) else t) x
  = column t x.
Proof.
  intros Hx. destruct (has_column t (fst cm)); auto.
  apply column_update_other; auto.
Qed.

Lemma column_apply_mappings_other mappings t x :
  ~ In x (map fst mappings) ->
  column (apply_mappings mappings t) x = column t x.
Proof.
  revert t. induction mappings as [| cm rest IH]; intros t Hx; simpl; auto.
  simpl in Hx. unfold apply_mappings in *. simpl.
  rewrite IH by tauto. apply mapping_step_other. intros ->. tauto.
Qed.

Lemma has_column_apply_mappings mappings t x :
  has_column (apply_mappings mappings t) x = has_column t x.
Proof.
  revert t. induction mappings as [| cm rest IH]; intros t; simpl; auto.
  unfold apply_mappings in *. simpl. rewrite IH.
  destruct (has_column t (fst cm)); auto. apply has_column_update.
Qed.



(** ** The imputation loops (lines 60-66) *)

Lemma assign_ok t col data l t' :
  assign t col data = (l, inr t') ->
  List.length data = nrows t /\ t' = set_column t col data /\ l = [].
Proof.
  unfold assign. destruct (Nat.eqb_spec (List.length data) (nrows t));
    unfold ret, raise; intros H; inversion H; auto.
Qed.

(** One turn of a loop: either the column has no missing cell and nothing
    happens, or the imputer is called on it and its answer is stored. *)
Lemma impute_column_ok k imp t col l t' :
  impute_column k imp t col = (l, inr t') ->
  exists data, column t col = Some data /\
    ((has_na data = false /\ t' = t /\ l = []) \/
     (has_na data = true /\ exists filled,
        transform imp col data = Some filled /\
        List.length filled = nrows t /\
        t' = set_column t col filled /\ l = [EvTransform k col data])).
Proof.
  unfold impute_column, get_column. intros H.
  destruct (column t col) as [data |] eqn:Hcol;
    [rewrite lift_some, bind_ret_l in H | discriminate].
  exists data. split; auto.
  destruct (has_na data) eqn:Hna.
  - right. split; auto.
    apply bind_ok in H. destruct H as [l1 [u [l2 [He [H ->]]]]].
    inversion He; subst l1.
    apply bind_ok in H. destruct H as [l3 [filled [l4 [Ht [Ha ->]]]]].
    apply lift_ok in Ht. destruct Ht as [Ht ->].
    apply assign_ok in Ha. destruct Ha as [Hlen [-> ->]].
    exists filled. auto.
  - left. unfold ret in H. inversion H; auto.
Qed.

Lemma trace_impute_column k imp t col ev :
  In ev (trace (impute_column k imp t col)) ->
  exists data, column t col = Some data /\ has_na data = true /\
               ev = EvTransform k col data.
Proof.
  unfold impute_column, get_column. intros H.
  destruct (column t col) as [data |] eqn:Hcol;
    [rewrite lift_some, bind_ret_l in H | contradiction].
  exists data. split; auto.
  destruct (has_na data) eqn:Hna; [| contradiction].
  split; auto.
  apply trace_bind in H. destruct H as [H | [u [_ H]]].
  - simpl in H. destruct H as [<- | []]. reflexivity.
  - apply trace_bind in H. destruct H as [H | [filled [_ H]]].
    + rewrite trace_lift in H. contradiction.
    + unfold assign in H.
      destruct (Nat.eqb (List.length filled) (nrows t)); contradiction.
Qed.

(** The imputers are only ever called on columns that have a missing
    cell, and only on columns the loop runs over. *)
Lemma trace_impute_loop k imp cols t ev :
  In ev (trace (impute_loop k imp cols t)) ->
  exists col data, ev = EvTransform k col data /\ In col cols /\
                   has_na data = true.
Proof.
  revert t. induction cols as [| c rest IH]; intros t H; simpl in H.
  - contradiction.
  - apply trace_bind in H. destruct H as [H | [t1 [_ H]]].
    + apply trace_impute_column in H. destruct H as [data [_ [Hna ->]]].
      exists c, data. simpl; auto.
    + destruct (IH _ H) as [col [data [-> [Hin Hna]]]].
      exists col, data. simpl; auto.
Qed.

Lemma impute_column_other k imp t col l t' x :
  impute_column k imp t col = (l, inr t') -> x <> col ->
  column t' x = column t x.
Proof.
  intros H Hx. apply impute_column_ok in H.
  destruct H as [data [_ [[_ [-> _]] | [_ [filled [_ [_ [-> _]]]]]]]]; auto.
  apply column_set_other; auto.
Qed.

Lemma impute_loop_other k imp cols t l t' x :
  impute_loop k imp cols t = (l, inr t') -> ~ In x cols ->
  column t' x = column t x.
Proof.
  revert t l. induction cols as [| c rest IH]; intros t l H Hx; simpl in H.
  - inversion H; auto.
  - apply bind_ok in H. destruct H as [l1 [t1 [l2 [H1 [H2 _]]]]].
    simpl in Hx. rewrite (IH _ _ H2) by tauto.
    eapply impute_column_other; eauto.
Qed.

(** A column without a missing cell goes through a loop untouched and is
    never handed to the imputer. *)
Lemma impute_loop_clean k imp cols t l t' x data :
  impute_loop k imp cols t = (l, inr t') ->
  column t x = Some data -> has_na data = false ->
  column t' x = Some data /\ forall k' d, ~ In (EvTransform k' x d) l.
Proof.
  revert t l. induction cols as [| c rest IH]; intros t l H Hcol Hna;
    simpl in H.
  - inversion H; subst. auto.
  - apply bind_ok in H. destruct H as [l1 [t1 [l2 [H1 [H2 ->]]]]].
    assert (Hstep : column t1 x = Some data /\
                    forall k' d, ~ In (EvTransform k' x d) l1).
    { pose proof H1 as H1'. apply impute_column_ok in H1'.
      destruct H1' as [dc [Hc [[_ [-> ->]] | [Hnac [filled [_ [_ [-> ->]]]]]]]].
      - auto.
      - assert (x <> c) by (intros ->; congruence).
        split.
        + rewrite column_set_other; auto.
        + intros k' d [Heq | []]. inversion Heq; congruence. }
    destruct Hstep as [Hcol1 Hl1].
    destruct (IH _ _ H2 Hcol1 Hna) as [Hcol' Hl2].
    split; auto. intros k' d Hin. apply in_app_or in Hin.
    destruct Hin; [eapply Hl1 | eapply Hl2]; eauto.
Qed.


(** ** Which events a stage can produce *)

Lemma only_bind {A B} P (m : M A) (f : A -> M B) :
  only_events P m -> (forall a, only_events P (f a)) ->
  only_events P (bind m f).
Proof.
  intros Hm Hf ev H. apply trace_bind in H.
  destruct H as [H | [a [_ H]]]; [apply Hm | eapply Hf]; eauto.
Qed.

Lemma only_ret {A} P (a : A) : only_events P (ret a).
Proof. intros ev []. Qed.

Lemma only_raise {A} P e : only_events P (@raise A e).
Proof. intros ev []. Qed.

Lemma only_lift {A} P e (r : option A) : only_events P (lift e r).
Proof. intros ev H. rewrite trace_lift in H. contradiction. Qed.

Lemma only_emit (P : event -> Prop) ev : P ev -> only_events P (emit ev).
Proof. intros H ev' [<- | []]. exact H. Qed.

Lemma only_assign P t col data : only_events P (assign t col data).
Proof.
  unfold assign. destruct (Nat.eqb (List.length data) (nrows t));
    intros ev [].
Qed.

Lemma only_risk_groups P n scores : only_events P (risk_groups n scores).
Proof.
  unfold risk_groups.
  destruct (3 <=? nunique scores)%nat;
    [| destruct (nunique scores =? 2)%nat; [| apply only_ret]];
    (apply only_bind; [apply only_lift | intros x]);
    match goal with
    | |- context [qcut ?x ?q ?l] => destruct (qcut x q l)
    end; (apply only_raise || apply only_ret).
Qed.

Lemma only_impute_loop P k imp cols t :
  (forall col data, In col cols -> has_na data = true ->
                    P (EvTransform k col data)) ->
  only_events P (impute_loop k imp cols t).
Proof.
  intros HP ev H. apply trace_impute_loop in H.
  destruct H as [col [data [-> [Hin Hna]]]]. auto.
Qed.

Lemma only_preprocess P lib b t :
  (forall k col data, imputer_call_ok b (EvTransform k col data) ->
                      P (EvTransform k col data)) ->
  only_events P (preprocess lib b t).
Proof.
  intros HP. unfold preprocess, impute.
  apply only_bind; [| intros; apply only_ret].
  apply only_bind; [| intros t1];
    apply only_impute_loop; intros col data Hin Hna; apply HP; simpl;
    split; auto;
    unfold numeric_in_model, categorical_in_model in Hin;
    apply filter_In in Hin; tauto.
Qed.

Lemma only_predict P b t :
  (forall X, P (EvPredict X)) -> only_events P (predict b t).
Proof.
  intros HP. unfold predict.
  apply only_bind; [apply only_emit; auto | intros _].
  apply only_bind; [apply only_lift | intros; apply only_assign].
Qed.

Lemma only_group P t : only_events P (group t).
Proof.
  unfold group, get_column.
  apply only_bind; [apply only_lift | intros scores].
  apply only_bind; [apply only_risk_groups | intros; apply only_ret].
Qed.

Lemma only_score_table P lib b input :
  (forall k col data, imputer_call_ok b (EvTransform k col data) ->
                      P (EvTransform k col data)) ->
  (forall X, P (EvPredict X)) ->
  only_events P (score_table lib b input).
Proof.
  intros HT HX. unfold score_table.
  destruct (missing_cols b input); [| apply only_raise].
  apply only_bind; [apply only_preprocess; auto | intros t].
  apply only_bind; [apply only_predict; auto | intros; apply only_group].
Qed.

Lemma only_validate (P : event -> Prop) lib t :
  (forall a p e, P (EvConcordance a p e)) -> (forall c, P (EvReport c)) ->
  only_events P (validate lib t).
Proof.
  intros HC HR. unfold validate, get_column.
  destruct (has_column t Event && has_column t OS_Time); [| apply only_ret].
  repeat (apply only_bind; [apply only_lift | intros ?]).
  apply only_bind; [apply only_emit; auto | intros _].
  apply only_bind; [apply only_lift | intros; apply only_emit; auto].
Qed.

Lemma only_save (P : event -> Prop) output_dir t :
  (forall path, P (EvToCsv path t)) -> only_events P (save output_dir t).
Proof.
  intros HP. unfold save.
  apply only_bind; [apply only_emit; auto | intros; apply only_ret].
Qed.

(** Across a whole run, every imputer call is made on a column of the
    imputer's own feature list that has a missing cell. *)
Lemma imputer_calls_of_run lib b input output_dir :
  only_events (imputer_call_ok b)
    (predict_on_new_data lib b input output_dir).
Proof.
  unfold predict_on_new_data.
  apply only_bind; [apply only_score_table; simpl; auto | intros t].
  apply only_bind; [apply only_validate; simpl; auto | intros _].
  apply only_save; simpl; auto.
Qed.

Lemma scoring_events_of_score_table lib b input :
  only_events scoring_event (score_table lib b input).
Proof. apply only_score_table; simpl; auto. Qed.

(** ** What the stages keep: labels, row count, column lengths *)

Lemma has_column_impute_column k imp t col l t' x :
  impute_column k imp t col = (l, inr t') ->
  has_column t' x = has_column t x.
Proof.
  intros H. apply impute_column_ok in H.
  destruct H as [data [Hc [[_ [-> _]] | [_ [filled [_ [_ [-> _]]]]]]]]; auto.
  rewrite has_column_set_column.
  destruct (String.eqb_spec x col) as [-> | Hx]; [| apply orb_false_r].
  assert (has_column t col = true) by (apply has_column_true; eauto).
  rewrite H. reflexivity.
Qed.

Lemma has_column_impute_loop k imp cols t l t' x :
  impute_loop k imp cols t = (l, inr t') ->
  has_column t' x = has_column t x.
Proof.
  revert t l. induction cols as [| c rest IH]; intros t l H; simpl in H.
  - inversion H; auto.
  - apply bind_ok in H. destruct H as [l1 [t1 [l2 [H1 [H2 _]]]]].
    rewrite (IH _ _ H2). eapply has_column_impute_column; eauto.
Qed.

Lemma shape_impute_loop k imp cols t l t' :
  impute_loop k imp cols t = (l, inr t') ->
  nrows t' = nrows t /\ (well_formed t -> well_formed t').
Proof.
  revert t l. induction cols as [| c rest IH]; intros t l H; simpl in H.
  - inversion H; auto.
  - apply bind_ok in H. destruct H as [l1 [t1 [l2 [H1 [H2 _]]]]].
    destruct (IH _ _ H2) as [Hn Hwf]. apply impute_column_ok in H1.
    destruct H1 as [data [Hc [[_ [-> _]] | [_ [filled [_ [Hlen [-> _]]]]]]]];
      auto.
    rewrite nrows_set_column in Hn. split; auto.
    intros Hw. apply Hwf. apply well_formed_set_column; auto.
Qed.

Lemma to_numeric_idem lib data :
  to_numeric lib (to_numeric lib data) = to_numeric lib data.
Proof.
  unfold to_numeric. rewrite map_map. apply map_ext.
  intros [| q | s]; simpl; auto. destruct (parse_number lib s); reflexivity.
Qed.

Lemma column_coerce_other lib cols t x :
  ~ In x cols -> column (coerce_numeric lib cols t) x = column t x.
Proof.
  revert t. induction cols as [| c rest IH]; intros t Hx; simpl; auto.
  simpl in Hx. unfold coerce_numeric in *. simpl. rewrite IH by tauto.
  apply column_update_other. intros ->. tauto.
Qed.

Lemma column_coerce_same lib cols t x data :
  In x cols -> column t x = Some data ->
  column (coerce_numeric lib cols t) x = Some (to_numeric lib data).
Proof.
  revert t data. induction cols as [| c rest IH]; intros t data Hin Hcol;
    simpl in *; [contradiction |].
  unfold coerce_numeric in *. simpl.
  destruct (String.eqb_spec x c) as [-> | Hne].
  - pose proof (column_update_same _ _ (to_numeric lib) _ Hcol) as H1.
    destruct (in_dec string_dec c rest) as [Hr | Hr].
    + rewrite (IH _ _ Hr H1). rewrite to_numeric_idem. reflexivity.
    + fold (coerce_numeric lib rest (update_column t c (to_numeric lib))).
      rewrite column_coerce_other; auto.
  - destruct Hin as [-> | Hin]; [congruence |].
    apply IH; auto. rewrite column_update_other; auto.
Qed.

Lemma has_column_coerce lib cols t x :
  has_column (coerce_numeric lib cols t) x = has_column t x.
Proof.
  revert t. induction cols as [| c rest IH]; intros t; simpl; auto.
  unfold coerce_numeric in *. simpl. rewrite IH. apply has_column_update.
Qed.

Lemma shape_coerce lib cols t :
  nrows (coerce_numeric lib cols t) = nrows t /\
  (well_formed t -> well_formed (coerce_numeric lib cols t)).
Proof.
  revert t. induction cols as [| c rest IH]; intros t; simpl; auto.
  unfold coerce_numeric in *. simpl.
  destruct (IH (update_column t c (to_numeric lib))) as [Hn Hwf].
  rewrite nrows_update in Hn. split; auto.
  intros Hw. apply Hwf. apply well_formed_update; auto.
  intros d. apply length_map.
Qed.

Lemma impute_ok lib b t l t' :
  impute lib b t = (l, inr t') ->
  exists l1 t1 l2,
    impute_loop Numeric (imputer_numeric b) (numeric_in_model b t)
      (coerce_numeric lib (numeric_in_model b t) t) = (l1, inr t1) /\
    impute_loop Categorical (imputer_categorical b)
      (categorical_in_model b t) t1 = (l2, inr t') /\
    l = l1 ++ l2.
Proof. unfold impute. intros H. apply bind_ok in H. exact H. Qed.

Lemma has_column_impute lib b t l t' x :
  impute lib b t = (l, inr t') -> has_column t' x = has_column t x.
Proof.
  intros H. apply impute_ok in H.
  destruct H as [l1 [t1 [l2 [H1 [H2 _]]]]].
  rewrite (has_column_impute_loop _ _ _ _ _ _ x H2).
  rewrite (has_column_impute_loop _ _ _ _ _ _ x H1).
  apply has_column_coerce.
Qed.

(** ** Imputation, column by column *)




(** C10. An imputer is called only with a column that has a missing cell;
    a column that has none when the loops start is the same after both
    loops, and neither imputer was called for it. *)
Theorem C10_complete_columns_pass_through lib b input output_dir :
  (forall k col data,
      In (EvTransform k col data)
         (trace (predict_on_new_data lib b input output_dir)) ->
      has_na data = true)
  /\ (forall t numeric categorical l1 t1 l2 t2 col data,
      impute_loop Numeric (imputer_numeric b) numeric t = (l1, inr t1) ->
      impute_loop Categorical (imputer_categorical b) categorical t1
        = (l2, inr t2) ->
      column t col = Some data -> has_na data = false ->
      column t2 col = Some data
      /\ forall k d, ~ In (EvTransform k col d) (l1 ++ l2)).
Proof.
  split.
  - intros k col data Hin.
    apply (imputer_calls_of_run lib b input output_dir) in Hin.
    simpl in Hin. tauto.
  - intros t numeric categorical l1 t1 l2 t2 col data H1 H2 Hcol Hna.
    destruct (impute_loop_clean _ _ _ _ _ _ _ _ H1 Hcol Hna) as [Hcol1 Hl1].
    destruct (impute_loop_clean _ _ _ _ _ _ _ _ H2 Hcol1 Hna) as [Hcol2 Hl2].
    split; auto. intros k d Hin. apply in_app_or in Hin.
    destruct Hin; [eapply Hl1 | eapply Hl2]; eauto.
Qed.

Lemma C10_complete_columns_pass_through_witness :
  has_na [Num (inject_Z 50); NaN; Num (inject_Z 70)] = true
  /\ exists l t2,
      impute Sample.lib Sample.bundle
        (replace (keep_required Sample.bundle Sample.patients)) = (l, inr t2)
      /\ column t2 OS_Time =
         Some [Num (inject_Z 12); Num (inject_Z 30); Num (inject_Z 7)].
Proof.
  destruct (C10_complete_columns_pass_through
              Sample.lib Sample.bundle Sample.patients "out") as [Hcall Hpass].
  split.
  - apply (Hcall Numeric "Age"). vm_compute. auto.
  - destruct (impute Sample.lib Sample.bundle
                (replace (keep_required Sample.bundle Sample.patients)))
      as [l [e | t2]] eqn:E; [vm_compute in E; discriminate |].
    exists l, t2. split; [reflexivity |].
    apply impute_ok in E. destruct E as [l1 [t1 [l2 [H1 [H2 _]]]]].
    apply (Hpass _ _ _ _ _ _ _ OS_Time _ H1 H2); reflexivity.
Defined.

(** ** The stages of a successful run *)

Lemma trace_risk_groups n scores : trace (risk_groups n scores) = [].
Proof.
  pose proof (only_risk_groups (fun _ => False) n scores) as H.
  destruct (trace (risk_groups n scores)) as [| ev rest] eqn:E; auto.
  exfalso. apply (H ev). rewrite E. simpl; auto.
Qed.

Lemma preprocess_ok lib b t l t' :
  preprocess lib b t = (l, inr t') ->
  exists t1, impute lib b (replace t) = (l, inr t1) /\
             t' = after_imputation lib b t1.
Proof.
  unfold preprocess. intros H. apply bind_ok in H.
  destruct H as [l1 [t1 [l2 [H1 [H2 ->]]]]].
  inversion H2; subst. rewrite app_nil_r. eauto.
Qed.

Lemma predict_ok b t l t' :
  predict b t = (l, inr t') ->
  exists scores,
    predict_partial_hazard (cox_model b) (select t (best_features b))
      = Some scores /\
    List.length scores = nrows t /\
    t' = set_column t Risk_Score (map score_cell scores) /\
    l = [EvPredict (select t (best_features b))].
Proof.
  unfold predict. intros H. apply bind_ok in H.
  destruct H as [l1 [u [l2 [He [H ->]]]]]. inversion He; subst l1.
  apply bind_ok in H. destruct H as [l3 [scores [l4 [Hs [Ha ->]]]]].
  apply lift_ok in Hs. destruct Hs as [Hs ->].
  apply assign_ok in Ha. destruct Ha as [Hlen [-> ->]].
  rewrite length_map in Hlen. exists scores. auto.
Qed.

Lemma group_ok t l t' :
  group t = (l, inr t') ->
  exists scores groups,
    column t Risk_Score = Some scores /\
    risk_groups (nrows t) scores = ([], inr groups) /\
    t' = set_column t Risk_Group groups /\ l = [].
Proof.
  unfold group. intros H. apply bind_ok in H.
  destruct H as [l1 [scores [l2 [Hs [H ->]]]]].
  apply lift_ok in Hs. destruct Hs as [Hs ->].
  apply bind_ok in H. destruct H as [l3 [groups [l4 [Hg [Hr ->]]]]].
  inversion Hr; subst.
  assert (l3 = []).
  { pose proof (trace_risk_groups (nrows t) scores) as Ht.
    rewrite Hg in Ht. exact Ht. }
  subst l3. exists scores, groups. auto.
Qed.

(** A run that reaches the table to be written went through these steps. *)
Lemma score_table_ok lib b input l t :
  score_table lib b input = (l, inr t) ->
  missing_cols b input = [] /\
  exists l1 t1 scores groups,
    impute lib b (replace (keep_required b input)) = (l1, inr t1) /\
    predict_partial_hazard (cox_model b)
      (select (after_imputation lib b t1) (best_features b)) = Some scores /\
    List.length scores = nrows (after_imputation lib b t1) /\
    risk_groups (nrows (after_imputation lib b t1)) (map score_cell scores)
      = ([], inr groups) /\
    t = set_column
          (set_column (after_imputation lib b t1) Risk_Score
             (map score_cell scores))
          Risk_Group groups /\
    l = l1 ++ [EvPredict (select (after_imputation lib b t1) (best_features b))].
Proof.
  unfold score_table. intros H.
  destruct (missing_cols b input) eqn:Hm; [| discriminate].
  split; auto.
  apply bind_ok in H. destruct H as [l1 [t2 [l2 [Hp [H ->]]]]].
  apply preprocess_ok in Hp. destruct Hp as [t1 [Hi ->]].
  apply bind_ok in H. destruct H as [l3 [t3 [l4 [Hs [Hg ->]]]]].
  apply predict_ok in Hs. destruct Hs as [scores [Hs [Hlen [-> ->]]]].
  apply group_ok in Hg. destruct Hg as [sc [groups [Hc [Hr [-> ->]]]]].
  rewrite column_set_same in Hc. inversion Hc; subst sc.
  rewrite nrows_set_column in Hr.
  exists l1, t1, scores, groups. rewrite app_nil_r. auto 10.
Qed.

Lemma run_ok lib b input output_dir l out :
  predict_on_new_data lib b input output_dir = (l, inr out) ->
  exists l1 l2,
    score_table lib b input = (l1, inr out) /\
    validate lib out = (l2, inr tt) /\
    l = l1 ++ l2
        ++ [EvToCsv (path_join output_dir "predictions_with_risk.csv") out].
Proof.
  unfold predict_on_new_data. intros H. apply bind_ok in H.
  destruct H as [l1 [t [l2 [Hs [H ->]]]]].
  apply bind_ok in H. destruct H as [l3 [u [l4 [Hv [Hw ->]]]]].
  unfold save, bind, emit, ret in Hw; simpl in Hw. inversion Hw; subst.
  destruct u. exists l1, l3. auto.
Qed.

(** ** The performance-status column (lines 72-73) *)

Lemma coerce_ecog_cells lib data :
  coerce_ecog lib data =
  map (fun raw => match to_numeric_cell lib raw with
                  | NaN => Num minus_one
                  | c => c
                  end) data.
Proof.
  unfold coerce_ecog, fillna, to_numeric. rewrite map_map.
  apply map_ext. intros raw. destruct (to_numeric_cell lib raw); reflexivity.
Qed.

Lemma coerce_ecog_numeric lib data :
  Forall (fun c => exists q, c = Num q) (coerce_ecog lib data).
Proof.
  rewrite coerce_ecog_cells. apply Forall_map. apply Forall_forall.
  intros [| q | s] _; simpl; eauto.
  destruct (parse_number lib s); eauto.
Qed.

Lemma column_ecog_same lib t data :
  column t ECOG_Score = Some data ->
  column (ecog_step lib t) ECOG_Score = Some (coerce_ecog lib data).
Proof.
  intros H. unfold ecog_step.
  assert (Hhas : has_column t ECOG_Score = true)
    by (apply has_column_true; eauto).
  rewrite Hhas. apply column_update_same; auto.
Qed.

Lemma column_ecog_other lib t x :
  x <> ECOG_Score -> column (ecog_step lib t) x = column t x.
Proof.
  intros Hx. unfold ecog_step. destruct (has_column t ECOG_Score); auto.
  apply column_update_other; auto.
Qed.

Lemma has_column_ecog lib t x :
  has_column (ecog_step lib t) x = has_column t x.
Proof.
  unfold ecog_step. destruct (has_column t ECOG_Score); auto.
  apply has_column_update.
Qed.

Lemma column_impute_other lib b t l t' x :
  impute lib b t = (l, inr t') ->
  ~ In x (pure_numeric_features b) -> ~ In x (categorical_features b) ->
  column t' x = column t x.
Proof.
  intros H Hn Hc. apply impute_ok in H.
  destruct H as [l1 [t1 [l2 [H1 [H2 _]]]]].
  rewrite (impute_loop_other _ _ _ _ _ _ x H2)
    by (intros Hin; apply filter_In in Hin; tauto).
  rewrite (impute_loop_other _ _ _ _ _ _ x H1)
    by (intros Hin; apply filter_In in Hin; tauto).
  apply column_coerce_other. intros Hin; apply filter_In in Hin; tauto.
Qed.

(** The two columns a run adds leave the others as preprocessing made them. *)
Lemma column_scored_other t scores groups x :
  x <> Risk_Score -> x <> Risk_Group ->
  column (set_column (set_column t Risk_Score scores) Risk_Group groups) x
  = column t x.
Proof. intros H1 H2. rewrite !column_set_other; auto. Qed.

(** C5, as the code has it.  The performance-status step turns the column
    into numbers, each cell that is missing or does not parse becoming -1.
    The column is kept away from the two imputers only by the bundle: when
    ECOG_Score is in neither the numeric nor the categorical feature list,
    no imputer is called for it in any run; and when it has no manual
    mapping either, the output holds, row by row, the number parsed from
    the input cell or -1. *)
Theorem C5_ecog_coerced_not_imputed lib b :
  (forall t data,
      column t ECOG_Score = Some data ->
      column (ecog_step lib t) ECOG_Score =
        Some (map (fun raw => match to_numeric_cell lib raw with
                              | NaN => Num minus_one
                              | c => c
                              end) data)
      /\ Forall (fun c => exists q, c = Num q) (coerce_ecog lib data))
  /\ (~ In ECOG_Score (pure_numeric_features b) ->
      ~ In ECOG_Score (categorical_features b) ->
      forall input output_dir,
        (forall k data,
            ~ In (EvTransform k ECOG_Score data)
                 (trace (predict_on_new_data lib b input output_dir)))
        /\ (~ In ECOG_Score (map fst (manual_mappings b)) ->
            forall l out raw,
              predict_on_new_data lib b input output_dir = (l, inr out) ->
              column (keep_required b input) ECOG_Score = Some raw ->
              column out ECOG_Score =
                Some (coerce_ecog lib (map replace_cell raw)))).
Proof.
  split.
  - intros t data H. split.
    + rewrite (column_ecog_same lib _ _ H). rewrite coerce_ecog_cells.
      reflexivity.
    + apply coerce_ecog_numeric.
  - intros Hn Hc input output_dir. split.
    + intros k data Hin.
      apply (imputer_calls_of_run lib b input output_dir) in Hin.
      simpl in Hin. destruct k; tauto.
    + intros Hm l out raw Hrun Hraw.
      apply run_ok in Hrun. destruct Hrun as [l1 [l2 [Hs _]]].
      apply score_table_ok in Hs.
      destruct Hs as [_ [l3 [t1 [scores [groups [Hi [_ [_ [_ [-> _]]]]]]]]]].
      rewrite column_scored_other by (unfold ECOG_Score; discriminate).
      unfold after_imputation.
      apply column_ecog_same.
      rewrite column_apply_mappings_other by exact Hm.
      rewrite (column_impute_other _ _ _ _ _ _ Hi Hn Hc).
      rewrite column_replace, Hraw. reflexivity.
Qed.

Lemma C5_ecog_coerced_not_imputed_witness :
  column (ecog_step Sample.lib Sample.patients) ECOG_Score =
    Some [Num (inject_Z 1); Num minus_one; Num minus_one]
  /\ ~ In (EvTransform Categorical ECOG_Score [Num (inject_Z 1); NaN; NaN])
          (trace (predict_on_new_data Sample.lib Sample.bundle
                    Sample.patients "out")).
Proof.
  destruct (C5_ecog_coerced_not_imputed Sample.lib Sample.bundle)
    as [Hstep Hrun].
  split.
  - destruct (Hstep Sample.patients
                [Num (inject_Z 1); Str "x"; NaN] eq_refl) as [H _].
    exact H.
  - assert (Hn : ~ In ECOG_Score (pure_numeric_features Sample.bundle))
      by (simpl; intros [H | []]; discriminate).
    assert (Hc : ~ In ECOG_Score (categorical_features Sample.bundle))
      by (simpl; intros [H | []]; discriminate).
    destruct (Hrun Hn Hc Sample.patients "out") as [H _].
    apply H.
Defined.

(** C5 as the claim words it fails: with ECOG_Score among the bundle's
    purely numeric features, the numeric imputer is called for the column,
    and the cell that does not parse ends as the imputed 60, not as -1. *)
Lemma C5_counterexample :
  In (EvTransform Numeric ECOG_Score [Num (inject_Z 1); NaN; NaN])
     (trace (predict_on_new_data Sample.lib Sample.ecog_numeric_bundle
               Sample.patients "out"))
  /\ (exists l out,
        predict_on_new_data Sample.lib Sample.ecog_numeric_bundle
          Sample.patients "out" = (l, inr out)
        /\ column out ECOG_Score =
           Some [Num (inject_Z 1); Num (inject_Z 60); Num (inject_Z 60)])
  /\ ~ (forall lib b input output_dir k data,
           ~ In (EvTransform k ECOG_Score data)
                (trace (predict_on_new_data lib b input output_dir))).
Proof.
  assert (Hev : In (EvTransform Numeric ECOG_Score [Num (inject_Z 1); NaN; NaN])
     (trace (predict_on_new_data Sample.lib Sample.ecog_numeric_bundle
               Sample.patients "out"))).
  { vm_compute. auto. }
  split; [exact Hev | split].
  - eexists. eexists. split; [vm_compute; reflexivity | reflexivity].
  - intros H. exact (H _ _ _ _ _ _ Hev).
Qed.

(** ** Missing cells after preprocessing *)

Lemma numeric_no_na data :
  Forall (fun c => exists q, c = Num q) data -> has_na data = false.
Proof.
  induction 1 as [| c rest [q ->] _ IH]; simpl; auto.
Qed.

Lemma apply_mapping_no_na mapping data :
  has_na (apply_mapping mapping data) = false.
Proof.
  apply numeric_no_na. rewrite apply_mapping_cells.
  apply Forall_map. apply Forall_forall. intros c _.
  destruct (dict_get mapping c); eauto.
Qed.

Lemma impute_loop_populates k imp cols t l t' f :
  imputer_fills imp ->
  impute_loop k imp cols t = (l, inr t') -> In f cols ->
  exists d, column t' f = Some d /\ has_na d = false.
Proof.
  intros Hfill. revert t l.
  induction cols as [| c rest IH]; intros t l H Hin; simpl in H.
  - contradiction.
  - apply bind_ok in H. destruct H as [l1 [t1 [l2 [H1 [H2 _]]]]].
    destruct (String.eqb_spec f c) as [-> | Hne].
    + apply impute_column_ok in H1.
      destruct H1 as [data [Hc [[Hna [-> _]] | [_ [filled [Ht [_ [-> _]]]]]]]].
      * exists data. split; auto.
        eapply impute_loop_clean; eauto.
      * exists filled. apply Hfill in Ht. split; auto.
        eapply impute_loop_clean; eauto. apply column_set_same.
    + destruct Hin as [-> | Hin]; [congruence |]. eauto.
Qed.

Lemma impute_populated lib b t l t' f :
  imputer_fills (imputer_numeric b) ->
  imputer_fills (imputer_categorical b) ->
  impute lib b t = (l, inr t') ->
  has_column t f = true ->
  In f (pure_numeric_features b) \/ In f (categorical_features b) ->
  exists d, column t' f = Some d /\ has_na d = false.
Proof.
  intros Hn Hc H Hhas Hin. apply impute_ok in H.
  destruct H as [l1 [t1 [l2 [H1 [H2 _]]]]].
  destruct (in_dec string_dec f (categorical_features b)) as [Hcat | Hcat].
  - eapply impute_loop_populates; eauto.
    apply filter_In. auto.
  - destruct Hin as [Hnum | Hcat']; [| contradiction].
    destruct (impute_loop_populates _ _ _ _ _ _ f Hn H1) as [d [Hd Hna]].
    { apply filter_In. auto. }
    exists d. split; auto.
    eapply impute_loop_clean; eauto.
Qed.

Lemma apply_mappings_populated mappings t f d :
  column t f = Some d ->
  has_na d = false \/ In f (map fst mappings) ->
  exists d', column (apply_mappings mappings t) f = Some d' /\
             has_na d' = false.
Proof.
  revert t d. induction mappings as [| [c m] rest IH]; intros t d Hcol Hor;
    simpl in *.
  - destruct Hor as [Hna | []]. eauto.
  - unfold apply_mappings in *. simpl.
    destruct (String.eqb_spec f c) as [-> | Hne].
    + assert (Hhas : has_column t c = true)
        by (apply has_column_true; eauto).
      rewrite Hhas. eapply IH.
      * apply column_update_same. exact Hcol.
      * left. apply apply_mapping_no_na.
    + eapply IH.
      * change c with (fst (c, m)). change m with (snd (c, m)) at 2.
        rewrite mapping_step_other; eauto.
      * destruct Hor as [Hna | [Heq | Hin]]; auto. congruence.
Qed.

Lemma ecog_populated lib t f d :
  column t f = Some d ->
  has_na d = false \/ f = ECOG_Score ->
  exists d', column (ecog_step lib t) f = Some d' /\ has_na d' = false.
Proof.
  intros Hcol Hor. destruct (String.eqb_spec f ECOG_Score) as [-> | Hne].
  - exists (coerce_ecog lib d). split.
    + apply column_ecog_same; auto.
    + apply numeric_no_na. apply coerce_ecog_numeric.
  - destruct Hor as [Hna | Heq]; [| contradiction].
    exists d. split; auto. rewrite column_ecog_other; auto.
Qed.

Lemma has_column_keep_required b input f :
  missing_cols b input = [] -> In f (best_features b) ->
  has_column (keep_required b input) f = true.
Proof.
  intros Hm Hin. unfold has_column. rewrite names_keep_required by auto.
  apply existsb_exists. exists f. split.
  - apply in_or_app; auto.
  - apply String.eqb_refl.
Qed.

(** After preprocessing, a covered feature has no missing cell. *)
Lemma preprocess_populated lib b input l t f :
  features_covered b ->
  imputer_fills (imputer_numeric b) ->
  imputer_fills (imputer_categorical b) ->
  missing_cols b input = [] ->
  preprocess lib b (keep_required b input) = (l, inr t) ->
  In f (best_features b) ->
  exists d, column t f = Some d /\ has_na d = false.
Proof.
  intros Hcov Hn Hc Hm H Hin.
  apply preprocess_ok in H. destruct H as [t1 [Hi ->]].
  assert (Hhas : has_column (replace (keep_required b input)) f = true).
  { rewrite has_column_replace. apply has_column_keep_required; auto. }
  assert (Hhas1 : has_column t1 f = true).
  { rewrite (has_column_impute _ _ _ _ _ f Hi). exact Hhas. }
  apply has_column_true in Hhas1. destruct Hhas1 as [d1 Hd1].
  unfold after_imputation.
  assert (Hmap : exists d2,
             column (apply_mappings (manual_mappings b) t1) f = Some d2 /\
             (has_na d2 = false \/ f = ECOG_Score)).
  { destruct (Hcov f Hin) as [Hnum | [Hcat | [Hmp | Hecog]]].
    - destruct (impute_populated _ _ _ _ _ f Hn Hc Hi Hhas) as [d [Hd Hna]];
        auto.
      destruct (apply_mappings_populated (manual_mappings b) _ _ _ Hd)
        as [d2 [Hd2 Hna2]]; eauto.
    - destruct (impute_populated _ _ _ _ _ f Hn Hc Hi Hhas) as [d [Hd Hna]];
        auto.
      destruct (apply_mappings_populated (manual_mappings b) _ _ _ Hd)
        as [d2 [Hd2 Hna2]]; eauto.
    - destruct (apply_mappings_populated (manual_mappings b) _ _ _ Hd1)
        as [d2 [Hd2 Hna2]]; eauto.
    - assert (Hh : has_column (apply_mappings (manual_mappings b) t1) f = true).
      { rewrite has_column_apply_mappings. apply has_column_true; eauto. }
      apply has_column_true in Hh. destruct Hh as [d2 Hd2]. eauto. }
  destruct Hmap as [d2 [Hd2 Hor]].
  eapply ecog_populated; eauto.
Qed.

Lemma select_columns_forall (P : list cell -> Prop) cols wanted :
  (forall n d, In n wanted -> lookup_column cols n = Some d -> P d) ->
  Forall (fun nd => P (snd nd)) (select_columns cols wanted).
Proof.
  induction wanted as [| n rest IH]; intros H; simpl; auto.
  destruct (lookup_column cols n) eqn:E.
  - constructor.
    + simpl. apply (H n); simpl; auto.
    + apply IH. intros m d Hm Hl. apply (H m); simpl; auto.
  - apply IH. intros m d Hm Hl. apply (H m); simpl; auto.
Qed.

(** The table handed to the model is the selection made from the
    preprocessed table. *)
Lemma predict_event_of_run lib b input output_dir X :
  In (EvPredict X) (trace (predict_on_new_data lib b input output_dir)) ->
  missing_cols b input = [] /\
  exists l t, preprocess lib b (keep_required b input) = (l, inr t) /\
              X = select t (best_features b).
Proof.
  unfold predict_on_new_data. intros H.
  apply trace_bind in H. destruct H as [H | [t5 [_ H]]].
  - unfold score_table in H.
    destruct (missing_cols b input) eqn:Hm; [| contradiction].
    split; auto.
    apply trace_bind in H. destruct H as [H | [t [Ht H]]].
    + exfalso.
      apply (only_preprocess
               (fun ev => match ev with EvPredict _ => False | _ => True end))
        in H; simpl; auto.
    + destruct (preprocess lib b (keep_required b input)) as [l r] eqn:Hp.
      unfold outcome in Ht; simpl in Ht. subst r.
      exists l, t. split; auto.
      apply trace_bind in H. destruct H as [H | [t' [_ H]]].
      * unfold predict in H.
        apply trace_bind in H. destruct H as [H | [u [_ H]]].
        -- destruct H as [H | []]. inversion H; auto.
        -- exfalso.
           apply (only_bind (fun _ => False)) in H;
             [exact H | apply only_lift | intros; apply only_assign].
      * exfalso. apply (only_group (fun _ => False)) in H. exact H.
  - exfalso. apply trace_bind in H. destruct H as [H | [u [_ H]]].
    + apply (only_validate
               (fun ev => match ev with EvPredict _ => False | _ => True end))
        in H; simpl; auto.
    + apply (only_save
               (fun ev => match ev with EvPredict _ => False | _ => True end))
        in H; simpl; auto.
Qed.

(** C3, as the code has it.  When every selected feature is covered by a
    preprocessing step and the two imputers leave no missing cell, the
    table handed to the hazard model has exactly the selected features as
    columns, and no cell of it is missing. *)
Theorem C3_selected_features_populated lib b input output_dir X :
  features_covered b ->
  imputer_fills (imputer_numeric b) ->
  imputer_fills (imputer_categorical b) ->
  In (EvPredict X) (trace (predict_on_new_data lib b input output_dir)) ->
  names X = best_features b /\ fully_populated X.
Proof.
  intros Hcov Hn Hc Hev.
  apply predict_event_of_run in Hev.
  destruct Hev as [Hm [l [t [Hp ->]]]].
  assert (Hall : forall f, In f (best_features b) ->
                           exists d, column t f = Some d /\ has_na d = false).
  { intros f Hin. eapply preprocess_populated; eauto. }
  split.
  - rewrite names_select.
    apply filter_all.
    induction (best_features b) as [| f rest IH]; simpl; auto.
    destruct (Hall f) as [d [Hd _]]; [simpl; auto |].
    assert (Hh : has_column t f = true) by (apply has_column_true; eauto).
    rewrite Hh. simpl. apply IH. intros g Hg. apply Hall. simpl; auto.
  - unfold fully_populated, select. simpl.
    apply (select_columns_forall (fun d => has_na d = false)).
    intros n d Hin Hl. destruct (Hall n Hin) as [d' [Hd' Hna]].
    unfold column in Hd'. congruence.
Qed.

Lemma fill_with_fills stat :
  (forall col, isna (stat col) = false) ->
  imputer_fills (Sample.fill_with stat).
Proof.
  intros Hs col data filled H. simpl in H. inversion H; subst. clear H.
  induction data as [| c rest IH]; simpl; auto.
  rewrite IH, orb_false_r. destruct c; simpl; auto.
Qed.

Lemma C3_selected_features_populated_witness :
  fully_populated
    (mkFrame 3
       [("Age", [Num (inject_Z 50); Num (inject_Z 60); Num (inject_Z 70)]);
        ("Stage", [Num (inject_Z 0); Num (inject_Z 1); Num minus_one]);
        ("ECOG_Score", [Num (inject_Z 1); Num minus_one; Num minus_one])]).
Proof.
  apply (C3_selected_features_populated
           Sample.lib Sample.bundle Sample.patients "out").
  - intros f Hin. simpl in Hin. simpl.
    destruct Hin as [<- | [<- | [<- | []]]]; auto.
  - apply fill_with_fills. reflexivity.
  - apply fill_with_fills. reflexivity.
  - vm_compute. do 2 right. left. reflexivity.
Defined.

(** C3 as the claim words it fails: a selected feature that is in neither
    feature list, has no manual mapping and is not the performance status
    reaches the model with its missing cell. *)
Lemma C3_counterexample :
  missing_cols Sample.bare_bundle Sample.one_unknown_age = []
  /\ (exists X,
        In (EvPredict X)
           (trace (predict_on_new_data Sample.lib Sample.bare_bundle
                     Sample.one_unknown_age "out"))
        /\ column X "Age" = Some [Num (inject_Z 50); NaN])
  /\ ~ (forall lib b input output_dir X,
           missing_cols b input = [] ->
           In (EvPredict X)
              (trace (predict_on_new_data lib b input output_dir)) ->
           fully_populated X).
Proof.
  assert (Hev : In (EvPredict (mkFrame 2 [("Age", [Num (inject_Z 50); NaN])]))
           (trace (predict_on_new_data Sample.lib Sample.bare_bundle
                     Sample.one_unknown_age "out"))).
  { vm_compute. left. reflexivity. }
  split; [reflexivity | split].
  - eexists. split; [exact Hev | reflexivity].
  - intros H.
    specialize (H _ _ _ _ _ (eq_refl : missing_cols Sample.bare_bundle
                                         Sample.one_unknown_age = []) Hev).
    inversion H as [| ? ? Hna _]. simpl in Hna. discriminate.
Qed.

(** ** Validation (lines 93-98) *)


Lemma negate_scores scores :
  exists negated, negate (map score_cell scores) = Some negated.
Proof.
  induction scores as [| [v |] rest [n IH]]; simpl; eauto;
    rewrite IH; simpl; eauto.
Qed.







Lemma risk_score_of_score_table lib b input l t :
  score_table lib b input = (l, inr t) ->
  exists scores, column t Risk_Score = Some (map score_cell scores).
Proof.
  intros H. apply score_table_ok in H.
  destruct H as [_ [l1 [t1 [scores [groups [_ [_ [_ [_ [-> _]]]]]]]]]].
  exists scores. rewrite column_set_other by discriminate.
  apply column_set_same.
Qed.







(** ** Rows *)

Lemma shape_apply_mappings mappings t :
  nrows (apply_mappings mappings t) = nrows t /\
  (well_formed t -> well_formed (apply_mappings mappings t)).
Proof.
  revert t. induction mappings as [| cm rest IH]; intros t; simpl; auto.
  unfold apply_mappings in *. simpl.
  destruct (has_column t (fst cm)); [| apply IH].
  destruct (IH (update_column t (fst cm) (apply_mapping (snd cm))))
    as [Hn Hwf].
  rewrite nrows_update in Hn. split; auto.
  intros Hw. apply Hwf. apply well_formed_update; auto.
  intros d. unfold apply_mapping, fillna, map_dict. rewrite !length_map.
  reflexivity.
Qed.

Lemma shape_ecog lib t :
  nrows (ecog_step lib t) = nrows t /\
  (well_formed t -> well_formed (ecog_step lib t)).
Proof.
  unfold ecog_step. destruct (has_column t ECOG_Score); auto.
  rewrite nrows_update. split; auto.
  intros Hw. apply well_formed_update; auto.
  intros d. unfold coerce_ecog, fillna, to_numeric. rewrite !length_map.
  reflexivity.
Qed.

Lemma shape_impute lib b t l t' :
  impute lib b t = (l, inr t') ->
  nrows t' = nrows t /\ (well_formed t -> well_formed t').
Proof.
  intros H. apply impute_ok in H.
  destruct H as [l1 [t1 [l2 [H1 [H2 _]]]]].
  destruct (shape_impute_loop _ _ _ _ _ _ H2) as [Hn2 Hw2].
  destruct (shape_impute_loop _ _ _ _ _ _ H1) as [Hn1 Hw1].
  destruct (shape_coerce lib (numeric_in_model b t) t) as [Hn0 Hw0].
  split; [congruence | auto].
Qed.

Lemma as_scores_length data x :
  as_scores data = Some x -> List.length x = List.length data.
Proof.
  revert x. induction data as [| c rest IH]; intros x H; simpl in H.
  - inversion H; reflexivity.
  - destruct c as [| v | s]; [| | discriminate];
      destruct (as_scores rest) as [y |]; simpl in H; inversion H; subst;
      simpl; f_equal; auto.
Qed.

Lemma qcut_length x q labels g :
  qcut x q labels = inr g -> List.length g = List.length x.
Proof.
  unfold qcut.
  destruct (negb (List.length labels =? List.length (qcut_bins x q) - 1)%nat);
    intros H; inversion H. apply length_map.
Qed.

(** The grouping gives one label per row. *)
Lemma risk_groups_length n scores l g :
  risk_groups n scores = (l, inr g) -> List.length scores = n ->
  List.length g = n.
Proof.
  unfold risk_groups. intros H Hlen.
  destruct (3 <=? nunique scores)%nat;
    [| destruct (nunique scores =? 2)%nat];
    try (apply bind_ok in H; destruct H as [l1 [x [l2 [Hx [H _]]]]];
         apply lift_ok in Hx; destruct Hx as [Hx _];
         apply as_scores_length in Hx;
         match type of H with
         | context [qcut ?x ?q ?lab] =>
             destruct (qcut x q lab) as [e | g'] eqn:Hq;
             [discriminate | inversion H; subst; apply qcut_length in Hq;
                             congruence]
         end).
  inversion H. apply repeat_length.
Qed.

Lemma in_names_keep_required b input col raw :
  In col (required_cols b) -> column input col = Some raw ->
  In col (names (keep_required b input)).
Proof.
  intros Hin Hcol. unfold keep_required. rewrite names_select, filter_idem.
  apply filter_In. split; auto. apply has_column_true; eauto.
Qed.

(** C8. A run on a table whose columns all have one cell per row returns
    a table with the same number of rows, every column of which still has
    one cell per row; its Risk_Score column holds the scores of the model
    in the order the model gave them, one per row, and its Risk_Group
    column one label per row; the table written is the table returned; and
    a kept column that no preprocessing step is aimed at holds, row by row,
    the cells of the input after the missing-value tokens were replaced. *)
Theorem C8_rows_preserved lib b input output_dir l out :
  well_formed input ->
  predict_on_new_data lib b input output_dir = (l, inr out) ->
  nrows out = nrows input
  /\ well_formed out
  /\ (exists X scores,
        predict_partial_hazard (cox_model b) X = Some scores
        /\ nrows X = nrows input
        /\ column out Risk_Score = Some (map score_cell scores)
        /\ List.length scores = nrows input)
  /\ (exists groups,
        column out Risk_Group = Some groups
        /\ List.length groups = nrows input)
  /\ In (EvToCsv (path_join output_dir "predictions_with_risk.csv") out) l
  /\ (forall col raw,
        In col (required_cols b) -> column input col = Some raw ->
        ~ In col (pure_numeric_features b) ->
        ~ In col (categorical_features b) ->
        ~ In col (map fst (manual_mappings b)) ->
        col <> ECOG_Score -> col <> Risk_Score -> col <> Risk_Group ->
        column out col = Some (map replace_cell raw)).
Proof.
  intros Hwf Hrun. apply run_ok in Hrun.
  destruct Hrun as [l1 [l2 [Hs [_ ->]]]].
  apply score_table_ok in Hs.
  destruct Hs as [_ [l3 [t1 [scores [groups [Hi [Hp [Hlen [Hg [-> _]]]]]]]]]].
  assert (Hshape : nrows (after_imputation lib b t1) = nrows input /\
                   well_formed (after_imputation lib b t1)).
  { unfold after_imputation.
    destruct (shape_ecog lib (apply_mappings (manual_mappings b) t1))
      as [Hn3 Hw3].
    destruct (shape_apply_mappings (manual_mappings b) t1) as [Hn2 Hw2].
    destruct (shape_impute _ _ _ _ _ Hi) as [Hn1 Hw1].
    split.
    - rewrite Hn3, Hn2, Hn1. reflexivity.
    - apply Hw3, Hw2, Hw1, well_formed_replace, well_formed_select, Hwf. }
  destruct Hshape as [Hn Hw].
  assert (Hglen : List.length groups = nrows (after_imputation lib b t1)).
  { eapply risk_groups_length; eauto. rewrite length_map. exact Hlen. }
  split; [| split; [| split; [| split; [| split]]]].
  - rewrite !nrows_set_column. exact Hn.
  - apply well_formed_set_column.
    + apply well_formed_set_column; auto. rewrite length_map. exact Hlen.
    + rewrite nrows_set_column. exact Hglen.
  - exists (select (after_imputation lib b t1) (best_features b)), scores.
    split; auto. split; [exact Hn | split].
    + rewrite column_set_other by discriminate. apply column_set_same.
    + congruence.
  - exists groups. split; [apply column_set_same | congruence].
  - apply in_or_app. right. apply in_or_app. right. simpl; auto.
  - intros col raw Hin Hcol Hnum Hcat Hmap Hecog Hsc Hgr.
    rewrite column_scored_other by auto.
    unfold after_imputation.
    rewrite column_ecog_other by auto.
    rewrite column_apply_mappings_other by auto.
    rewrite (column_impute_other _ _ _ _ _ col Hi) by auto.
    rewrite column_replace.
    rewrite column_keep_required by (eapply in_names_keep_required; eauto).
    rewrite Hcol. reflexivity.
Qed.

Lemma C8_rows_preserved_witness :
  exists l out,
    predict_on_new_data Sample.lib Sample.bundle Sample.patients "out"
      = (l, inr out)
    /\ nrows out = 3%nat /\ well_formed out.
Proof.
  destruct (predict_on_new_data Sample.lib Sample.bundle Sample.patients "out")
    as [l [e | out]] eqn:Hrun; [vm_compute in Hrun; discriminate |].
  exists l, out. split; [reflexivity |].
  assert (Hwf : well_formed Sample.patients) by (repeat constructor).
  destruct (C8_rows_preserved _ _ _ _ _ _ Hwf Hrun) as [Hn [Hw _]].
  split; [exact Hn | exact Hw].
Defined.


(** ** Risk grouping (lines 84-90) *)

(** With fewer than two distinct scores every row is Medium. *)
Lemma risk_groups_constant n scores :
  (nunique scores < 2)%nat ->
  risk_groups n scores = ret (repeat (Str "Medium") n).
Proof.
  intros H. unfold risk_groups.
  destruct (3 <=? nunique scores)%nat eqn:E3;
    [apply Nat.leb_le in E3; lia |].
  destruct (nunique scores =? 2)%nat eqn:E2;
    [apply Nat.eqb_eq in E2; lia |].
  reflexivity.
Qed.

(** [qcut] succeeds exactly when the labels fit the edges that are left. *)
Lemma qcut_ok_iff x q labels :
  (exists g, qcut x q labels = inr g) <->
  List.length labels = (List.length (qcut_bins x q) - 1)%nat.
Proof.
  unfold qcut.
  destruct (Nat.eqb_spec (List.length labels)
              (List.length (qcut_bins x q) - 1)) as [Heq | Hne]; simpl.
  - split; eauto.
  - split; [intros [g H]; discriminate | contradiction].
Qed.

Lemma searchsorted_left_le bins v :
  (searchsorted_left bins v <= List.length bins)%nat.
Proof. unfold searchsorted_left. apply filter_length_le. Qed.

Lemma qcut_bins_length x q : (1 <= List.length (qcut_bins x q))%nat.
Proof.
  unfold qcut_bins. rewrite <- cons_seq. simpl map. simpl unique.
  match goal with |- context [if ?c then _ else _] => destruct c end;
    simpl; lia.
Qed.

(** The labels [qcut] hands out are among those it was given. *)
Lemma qcut_labels x q labels g :
  qcut x q labels = inr g ->
  Forall (fun c => c = NaN \/ exists lab, In lab labels /\ c = Str lab) g.
Proof.
  unfold qcut.
  destruct (Nat.eqb_spec (List.length labels)
              (List.length (qcut_bins x q) - 1)) as [Heq | Hne]; simpl;
    intros H; inversion H; clear H.
  apply Forall_map. apply Forall_forall. intros [v |] _; auto.
  set (id := if Qeq_bool v (hd 0%Q (qcut_bins x q)) then 1%nat
             else searchsorted_left (qcut_bins x q) v).
  destruct (Nat.eqb_spec id (List.length (qcut_bins x q))) as [Hl | Hl];
    simpl; auto.
  destruct (Nat.eqb_spec id 0) as [Hz | Hz]; simpl; auto.
  right. exists (nth (id - 1) labels ""). split; auto.
  apply nth_In.
  assert (id <= List.length (qcut_bins x q))%nat.
  { unfold id. destruct (Qeq_bool v (hd 0%Q (qcut_bins x q))).
    - apply qcut_bins_length.
    - apply searchsorted_left_le. }
  lia.
Qed.

(** The three batches the specification lists. *)
Lemma risk_groups_six_distinct :
  risk_groups 6 (Sample.numbers [1; 2; 3; 4; 5; 6]%Z) =
  ret [Str "Low"; Str "Low"; Str "Medium"; Str "Medium"; Str "High"; Str "High"].
Proof. vm_compute. reflexivity. Qed.

Lemma risk_groups_one_value :
  risk_groups 2 (Sample.numbers [5; 5]%Z) = ret [Str "Medium"; Str "Medium"].
Proof. vm_compute. reflexivity. Qed.

Lemma risk_groups_two_values :
  risk_groups 2 (Sample.numbers [1; 2]%Z) = ret [Str "Low"; Str "High"].
Proof. vm_compute. reflexivity. Qed.

(** C1. The cascade does not hold in the form "never an error": on scores
    1,1,1,1,2,3 (three distinct values) the tertile edges are 1, 1, 4/3, 3;
    dropping the repeated edge leaves two intervals for three labels and
    the grouping raises, and the run ends without writing anything.  The
    same happens with two distinct values on 1,1,2, whose median repeats
    the lowest edge. *)
Theorem C1_repeated_edges_raise :
  nunique (Sample.numbers [1; 1; 1; 1; 2; 3]%Z) = 3%nat
  /\ qcut_bins (map Some [1; 1; 1; 1; 2; 3]%Q) 3 = [1; Qmake 4 3; 3]%Q
  /\ risk_groups 6 (Sample.numbers [1; 1; 1; 1; 2; 3]%Z)
     = ([], inl BinLabelError)
  /\ predict_on_new_data Sample.lib Sample.age_bundle Sample.tied_patients "out"
     = ([EvPredict Sample.tied_patients], inl BinLabelError)
  /\ nunique (Sample.numbers [1; 1; 2]%Z) = 2%nat
  /\ risk_groups 3 (Sample.numbers [1; 1; 2]%Z) = ([], inl BinLabelError).
Proof. repeat split; vm_compute; reflexivity. Qed.

(** * Further properties of the pipeline *)

(** ** What a run leaves behind *)

Lemma validate_ok lib t l u :
  validate lib t = (l, inr u) ->
  l = [] \/
  exists a s p e c,
    column t OS_Time = Some a /\ column t Risk_Score = Some s /\
    negate s = Some p /\ column t Event = Some e /\
    concordance_index lib a p e = Some c /\
    l = [EvConcordance a p e; EvReport c].
Proof.
  unfold validate, get_column.
  destruct (has_column t Event && has_column t OS_Time).
  - intros H. right.
    apply bind_ok in H. destruct H as [l1 [a [l2 [Ha [H ->]]]]].
    apply lift_ok in Ha. destruct Ha as [Ha ->].
    apply bind_ok in H. destruct H as [l3 [s [l4 [Hs [H ->]]]]].
    apply lift_ok in Hs. destruct Hs as [Hs ->].
    apply bind_ok in H. destruct H as [l5 [p [l6 [Hp [H ->]]]]].
    apply lift_ok in Hp. destruct Hp as [Hp ->].
    apply bind_ok in H. destruct H as [l7 [e [l8 [He [H ->]]]]].
    apply lift_ok in He. destruct He as [He ->].
    apply bind_ok in H. destruct H as [l9 [u1 [l10 [Hev [H ->]]]]].
    inversion Hev; subst l9.
    apply bind_ok in H. destruct H as [l11 [c [l12 [Hc [H ->]]]]].
    apply lift_ok in Hc. destruct Hc as [Hc ->].
    inversion H; subst.
    exists a, s, p, e, c. simpl. auto 10.
  - intros H. inversion H. auto.
Qed.

Lemma only_impute P lib b t :
  (forall k col data, P (EvTransform k col data)) ->
  only_events P (impute lib b t).
Proof.
  intros HP. unfold impute.
  apply only_bind; [| intros t1]; apply only_impute_loop; auto.
Qed.

(** X1. A run that ends with an error, whichever it is and wherever it
    arises, has written no file. *)
Theorem X1_nothing_written_on_failure lib b input output_dir e :
  outcome (predict_on_new_data lib b input output_dir) = inl e ->
  forall path t,
    ~ In (EvToCsv path t) (trace (predict_on_new_data lib b input output_dir)).
Proof.
  unfold predict_on_new_data, outcome, trace. intros Hfail path t Hin.
  pose proof (scoring_events_of_score_table lib b input) as Hsc.
  destruct (score_table lib b input) as [l1 [e1 | t1]]; simpl in *.
  - apply (Hsc _ Hin).
  - pose proof (only_validate
                  (fun ev => match ev with EvToCsv _ _ => False | _ => True end)
                  lib t1 (fun _ _ _ => I) (fun _ => I)) as Hv.
    destruct (validate lib t1) as [l2 [e2 | u]]; simpl in *.
    + apply in_app_or in Hin. destruct Hin as [Hin | Hin].
      * apply (Hsc _ Hin).
      * apply (Hv _ Hin).
    + discriminate.
Qed.

Lemma X1_nothing_written_on_failure_witness :
  ~ In (EvToCsv "out/predictions_with_risk.csv" Sample.tied_patients)
       (trace (predict_on_new_data Sample.lib Sample.age_bundle
                 Sample.tied_patients "out")).
Proof.
  apply (X1_nothing_written_on_failure Sample.lib Sample.age_bundle
           Sample.tied_patients "out" BinLabelError).
  reflexivity.
Defined.

(** X2. The calls of a successful run come in this order: the imputer
    calls, then one call of the model, then either nothing or the
    concordance call followed by the report of the value it returned, and
    last the one write, of the table that is returned. *)
Theorem X2_events_of_a_successful_run lib b input output_dir l out :
  predict_on_new_data lib b input output_dir = (l, inr out) ->
  exists imputations X validation,
    l = imputations ++ [EvPredict X] ++ validation
        ++ [EvToCsv (path_join output_dir "predictions_with_risk.csv") out]
    /\ Forall (fun ev => exists k col data, ev = EvTransform k col data)
              imputations
    /\ (validation = [] \/
        exists a p e c,
          concordance_index lib a p e = Some c /\
          validation = [EvConcordance a p e; EvReport c]).
Proof.
  intros Hrun. apply run_ok in Hrun.
  destruct Hrun as [l1 [l2 [Hs [Hv ->]]]].
  apply score_table_ok in Hs.
  destruct Hs as [_ [l3 [t1 [scores [groups [Hi [_ [_ [_ [_ ->]]]]]]]]]].
  exists l3, (select (after_imputation lib b t1) (best_features b)), l2.
  split; [rewrite <- !app_assoc; reflexivity | split].
  - apply Forall_forall. intros ev Hin.
    apply (only_impute
             (fun ev => exists k col data, ev = EvTransform k col data)
             lib b (replace (keep_required b input))).
    + intros k col data. eauto.
    + rewrite Hi. exact Hin.
  - apply validate_ok in Hv.
    destruct Hv as [-> | [a [s [p [e [c [_ [_ [_ [_ [Hc ->]]]]]]]]]]]; auto.
    right. exists a, p, e, c. auto.
Qed.

Lemma X2_events_of_a_successful_run_witness :
  exists l out imputations X validation,
    predict_on_new_data Sample.lib Sample.bundle Sample.patients "out"
      = (l, inr out)
    /\ l = imputations ++ [EvPredict X] ++ validation
           ++ [EvToCsv (path_join "out" "predictions_with_risk.csv") out].
Proof.
  destruct (predict_on_new_data Sample.lib Sample.bundle Sample.patients "out")
    as [l [e | out]] eqn:Hrun; [vm_compute in Hrun; discriminate |].
  destruct (X2_events_of_a_successful_run _ _ _ _ _ _ Hrun)
    as [imputations [X [validation [Hl _]]]].
  exists l, out, imputations, X, validation. split; [reflexivity | exact Hl].
Defined.

(** ** Which columns of the input matter, and which columns come out *)

Lemma has_column_of_column t x :
  has_column t x = match column t x with Some _ => true | None => false end.
Proof.
  destruct (column t x) eqn:E.
  - apply has_column_true. eauto.
  - apply has_column_false. exact E.
Qed.

Lemma select_columns_ext cols cols' wanted :
  (forall x, In x wanted -> lookup_column cols x = lookup_column cols' x) ->
  select_columns cols wanted = select_columns cols' wanted.
Proof.
  induction wanted as [| n rest IH]; intros H; simpl; auto.
  rewrite <- (H n) by (simpl; auto).
  rewrite IH by (intros x Hx; apply H; simpl; auto).
  reflexivity.
Qed.

(** X3. Columns of the spreadsheet that are neither selected features nor
    OS_Time or Event have no influence: two inputs with the same number of
    rows that agree on those columns give the same run, event for event. *)
Theorem X3_other_columns_are_ignored lib b input input' output_dir :
  nrows input = nrows input' ->
  (forall col, In col (required_cols b) -> column input col = column input' col) ->
  predict_on_new_data lib b input output_dir
  = predict_on_new_data lib b input' output_dir.
Proof.
  intros Hn Hcols.
  assert (Hhas : forall col, In col (required_cols b) ->
                             has_column input col = has_column input' col).
  { intros col Hin. rewrite !has_column_of_column, (Hcols col Hin).
    reflexivity. }
  assert (Hmiss : missing_cols b input = missing_cols b input').
  { unfold missing_cols. apply filter_ext_in. intros col Hin.
    rewrite Hhas; auto. unfold required_cols. apply in_or_app; auto. }
  assert (Hkeep : keep_required b input = keep_required b input').
  { unfold keep_required, select.
    rewrite (filter_ext_in _ _ _ Hhas). rewrite Hn. f_equal.
    apply select_columns_ext. intros x Hx.
    apply filter_In in Hx. apply (Hcols x). tauto. }
  unfold predict_on_new_data, score_table. rewrite Hmiss, Hkeep.
  reflexivity.
Qed.

Lemma X3_other_columns_are_ignored_witness :
  predict_on_new_data Sample.lib Sample.bundle Sample.patients "out"
  = predict_on_new_data Sample.lib Sample.bundle
      (mkFrame 3 (tl (columns Sample.patients))) "out".
Proof.
  apply X3_other_columns_are_ignored.
  - reflexivity.
  - intros col Hin. simpl in Hin.
    destruct Hin as [<- | [<- | [<- | [<- | [<- | []]]]]]; reflexivity.
Defined.

Lemma names_set_column t col data :
  names (set_column t col data) =
  if has_column t col then names t else names t ++ [col].
Proof.
  unfold set_column, names. destruct (has_column t col); simpl.
  - rewrite map_map. apply map_ext. intros [c d]; simpl.
    destruct (String.eqb col c); reflexivity.
  - rewrite map_app. reflexivity.
Qed.

Lemma names_update t col f : names (update_column t col f) = names t.
Proof.
  unfold update_column. destruct (column t col) eqn:E; auto.
  rewrite names_set_column.
  assert (H : has_column t col = true) by (apply has_column_true; eauto).
  rewrite H. reflexivity.
Qed.

Lemma names_replace t : names (replace t) = names t.
Proof.
  unfold names, replace, map_cells; simpl. rewrite map_map.
  apply map_ext. reflexivity.
Qed.

Lemma names_coerce lib cols t : names (coerce_numeric lib cols t) = names t.
Proof.
  revert t. induction cols as [| c rest IH]; intros t; simpl; auto.
  unfold coerce_numeric in *. simpl. rewrite IH. apply names_update.
Qed.

Lemma names_impute_loop k imp cols t l t' :
  impute_loop k imp cols t = (l, inr t') -> names t' = names t.
Proof.
  revert t l. induction cols as [| c rest IH]; intros t l H; simpl in H.
  - inversion H; auto.
  - apply bind_ok in H. destruct H as [l1 [t1 [l2 [H1 [H2 _]]]]].
    rewrite (IH _ _ H2). apply impute_column_ok in H1.
    destruct H1 as [data [Hc [[_ [-> _]] | [_ [filled [_ [_ [-> _]]]]]]]];
      auto.
    rewrite names_set_column.
    assert (H : has_column t c = true) by (apply has_column_true; eauto).
    rewrite H. reflexivity.
Qed.

Lemma names_apply_mappings mappings t :
  names (apply_mappings mappings t) = names t.
Proof.
  revert t. induction mappings as [| cm rest IH]; intros t; simpl; auto.
  unfold apply_mappings in *. simpl. rewrite IH.
  destruct (has_column t (fst cm)); auto. apply names_update.
Qed.

Lemma names_ecog lib t : names (ecog_step lib t) = names t.
Proof.
  unfold ecog_step. destruct (has_column t ECOG_Score); auto.
  apply names_update.
Qed.

Lemma has_column_names t x :
  has_column t x = true <-> In x (names t).
Proof.
  unfold has_column. rewrite existsb_exists. split.
  - intros [y [Hy Heq]]. apply String.eqb_eq in Heq. subst. exact Hy.
  - intros H. exists x. split; auto. apply String.eqb_refl.
Qed.

(** X4. When neither Risk_Score nor Risk_Group is a selected feature, the
    table a run returns has these columns, in this order: the selected
    features, then OS_Time and Event as far as the input has them, then
    Risk_Score, then Risk_Group. *)
Theorem X4_columns_of_the_output lib b input output_dir l out :
  ~ In Risk_Score (best_features b) ->
  ~ In Risk_Group (best_features b) ->
  predict_on_new_data lib b input output_dir = (l, inr out) ->
  names out =
  best_features b ++ filter (has_column input) [OS_Time; Event]
  ++ [Risk_Score; Risk_Group].
Proof.
  intros Hs Hg Hrun. apply run_ok in Hrun.
  destruct Hrun as [l1 [l2 [Hst _]]].
  apply score_table_ok in Hst.
  destruct Hst as [Hm [l3 [t1 [scores [groups [Hi [_ [_ [_ [-> _]]]]]]]]]].
  assert (Hnames : names (after_imputation lib b t1) =
                   best_features b ++ filter (has_column input) [OS_Time; Event]).
  { unfold after_imputation. rewrite names_ecog, names_apply_mappings.
    apply impute_ok in Hi. destruct Hi as [l4 [t2 [l5 [H1 [H2 _]]]]].
    rewrite (names_impute_loop _ _ _ _ _ _ H2).
    rewrite (names_impute_loop _ _ _ _ _ _ H1).
    rewrite names_coerce, names_replace.
    apply names_keep_required. exact Hm. }
  assert (Hno : forall x, ~ In x (best_features b) ->
                          x <> OS_Time -> x <> Event ->
                          has_column (after_imputation lib b t1) x = false).
  { intros x Hx Ho He.
    destruct (has_column (after_imputation lib b t1) x) eqn:E; auto.
    apply has_column_names in E. rewrite Hnames in E.
    apply in_app_or in E. destruct E as [E | E]; [contradiction |].
    apply filter_In in E. destruct E as [[E | [E | []]] _]; congruence. }
  rewrite !names_set_column, has_column_set_column.
  rewrite (Hno Risk_Score) by (auto; discriminate).
  rewrite (Hno Risk_Group) by (auto; discriminate).
  simpl. rewrite Hnames, <- !app_assoc. reflexivity.
Qed.

Lemma X4_columns_of_the_output_witness :
  exists l out,
    predict_on_new_data Sample.lib Sample.bundle Sample.new_patients "out"
      = (l, inr out)
    /\ names out = ["Age"; "Stage"; "ECOG_Score"; "Risk_Score"; "Risk_Group"].
Proof.
  destruct (predict_on_new_data Sample.lib Sample.bundle
              Sample.new_patients "out")
    as [l [e | out]] eqn:Hrun; [vm_compute in Hrun; discriminate |].
  exists l, out. split; [reflexivity |].
  apply (X4_columns_of_the_output Sample.lib Sample.bundle
           Sample.new_patients "out" l out); auto;
    simpl; intros [H | [H | [H | []]]]; discriminate.
Defined.

(** ** What reaches the model and the imputers *)

Lemma all_cells_column P t col data :
  all_cells P t -> column t col = Some data -> Forall P data.
Proof.
  unfold all_cells, column. intros Hall Hcol. apply lookup_in in Hcol.
  rewrite Forall_forall in Hall. apply (Hall _ Hcol).
Qed.

Lemma all_cells_set_column P t col data :
  all_cells P t -> Forall P data -> all_cells P (set_column t col data).
Proof.
  unfold all_cells, set_column. intros Hall Hd.
  destruct (has_column t col); simpl.
  - rewrite Forall_map. eapply Forall_impl; [| exact Hall].
    intros [c d] H; simpl in *. destruct (String.eqb col c); simpl; auto.
  - apply Forall_app. split; auto.
Qed.

Lemma all_cells_update P t col f :
  (forall d, Forall P d -> Forall P (f d)) ->
  all_cells P t -> all_cells P (update_column t col f).
Proof.
  intros Hf Hall. unfold update_column. destruct (column t col) eqn:E; auto.
  apply all_cells_set_column; auto. apply Hf.
  eapply all_cells_column; eauto.
Qed.

Lemma all_cells_select P t wanted :
  all_cells P t -> all_cells P (select t wanted).
Proof.
  unfold all_cells, select; simpl. intros Hall.
  apply (select_columns_forall (Forall P)). intros n d _ Hl.
  apply lookup_in in Hl. rewrite Forall_forall in Hall. apply (Hall _ Hl).
Qed.

Lemma replace_cell_no_token c : no_token (replace_cell c).
Proof.
  destruct c as [| q | s]; [exact I | exact I |].
  unfold replace_cell.
  destruct (existsb (String.eqb s) missing_values) eqn:E; [exact I |].
  unfold no_token. intros Hin.
  assert (existsb (String.eqb s) missing_values = true).
  { apply existsb_exists. exists s. split; auto. apply String.eqb_refl. }
  congruence.
Qed.

Lemma all_cells_replace t : all_cells no_token (replace t).
Proof.
  unfold all_cells, replace, map_cells; simpl.
  apply Forall_map. apply Forall_forall. intros nd _. simpl.
  apply Forall_map. apply Forall_forall. intros c _.
  apply replace_cell_no_token.
Qed.

Lemma to_numeric_no_token lib d :
  Forall no_token d -> Forall no_token (to_numeric lib d).
Proof.
  intros H. unfold to_numeric. apply Forall_map.
  eapply Forall_impl; [| exact H].
  intros [| q | s] Hc; simpl; auto;
    destruct (parse_number lib s); exact I.
Qed.

Lemma numeric_no_token d : Forall numeric_cell d -> Forall no_token d.
Proof.
  intros H. eapply Forall_impl; [| exact H].
  intros [| q | s]; simpl; tauto.
Qed.

Lemma apply_mapping_numeric mapping d :
  Forall numeric_cell (apply_mapping mapping d).
Proof.
  rewrite apply_mapping_cells. apply Forall_map. apply Forall_forall.
  intros c _. destruct (dict_get mapping c); simpl; auto.
Qed.

Lemma coerce_ecog_numeric_cells lib d : Forall numeric_cell (coerce_ecog lib d).
Proof.
  eapply Forall_impl; [| apply coerce_ecog_numeric].
  intros c [q ->]. exact I.
Qed.

Lemma all_cells_coerce P lib cols t :
  (forall d, Forall P d -> Forall P (to_numeric lib d)) ->
  all_cells P t -> all_cells P (coerce_numeric lib cols t).
Proof.
  intros Hf. revert t. induction cols as [| c rest IH]; intros t H; simpl; auto.
  unfold coerce_numeric in *. simpl. apply IH. apply all_cells_update; auto.
Qed.

Lemma all_cells_impute_loop P k imp cols t l t' :
  (forall col data filled, Forall P data ->
                           transform imp col data = Some filled ->
                           Forall P filled) ->
  impute_loop k imp cols t = (l, inr t') ->
  all_cells P t -> all_cells P t'.
Proof.
  intros Himp. revert t l.
  induction cols as [| c rest IH]; intros t l H Hall; simpl in H.
  - inversion H; subst; auto.
  - apply bind_ok in H. destruct H as [l1 [t1 [l2 [H1 [H2 _]]]]].
    apply (IH _ _ H2). apply impute_column_ok in H1.
    destruct H1 as [data [Hd [[_ [-> _]] | [_ [filled [Ht [_ [-> _]]]]]]]];
      auto.
    apply all_cells_set_column; auto.
    apply (Himp c data); auto. eapply all_cells_column; eauto.
Qed.

Lemma all_cells_apply_mappings mappings t :
  all_cells no_token t -> all_cells no_token (apply_mappings mappings t).
Proof.
  revert t. induction mappings as [| cm rest IH]; intros t H; simpl; auto.
  unfold apply_mappings in *. simpl. apply IH.
  destruct (has_column t (fst cm)); auto.
  apply all_cells_update; auto.
  intros d _. apply numeric_no_token, apply_mapping_numeric.
Qed.

Lemma all_cells_ecog lib t :
  all_cells no_token t -> all_cells no_token (ecog_step lib t).
Proof.
  intros H. unfold ecog_step. destruct (has_column t ECOG_Score); auto.
  apply all_cells_update; auto.
  intros d _. apply numeric_no_token, coerce_ecog_numeric_cells.
Qed.

(** X5. When the two imputers never answer with one of the missing-value
    tokens, no cell of the table handed to the model holds one of them,
    whatever the spreadsheet held. *)
Theorem X5_no_token_reaches_the_model lib b input output_dir X :
  imputer_token_free (imputer_numeric b) ->
  imputer_token_free (imputer_categorical b) ->
  In (EvPredict X) (trace (predict_on_new_data lib b input output_dir)) ->
  all_cells no_token X.
Proof.
  intros Hn Hc Hev. apply predict_event_of_run in Hev.
  destruct Hev as [_ [l [t [Hp ->]]]].
  apply all_cells_select.
  apply preprocess_ok in Hp. destruct Hp as [t1 [Hi ->]].
  unfold after_imputation. apply all_cells_ecog, all_cells_apply_mappings.
  apply impute_ok in Hi. destruct Hi as [l1 [t2 [l2 [H1 [H2 _]]]]].
  apply (all_cells_impute_loop _ _ _ _ _ _ _ Hc H2).
  apply (all_cells_impute_loop _ _ _ _ _ _ _ Hn H1).
  apply all_cells_coerce; [apply to_numeric_no_token | apply all_cells_replace].
Qed.

Lemma fill_with_token_free stat :
  (forall col, no_token (stat col)) ->
  imputer_token_free (Sample.fill_with stat).
Proof.
  intros Hs col data filled Hd H. simpl in H. inversion H; subst. clear H.
  apply Forall_map. eapply Forall_impl; [| exact Hd].
  intros [| q | s] Hc; simpl; auto.
Qed.

Lemma X5_no_token_reaches_the_model_witness :
  all_cells no_token
    (mkFrame 3
       [("Age", [Num (inject_Z 50); Num (inject_Z 60); Num (inject_Z 70)]);
        ("Stage", [Num (inject_Z 0); Num (inject_Z 1); Num minus_one]);
        ("ECOG_Score", [Num (inject_Z 1); Num minus_one; Num minus_one])]).
Proof.
  apply (X5_no_token_reaches_the_model
           Sample.lib Sample.bundle Sample.patients "out").
  - apply fill_with_token_free. intros col. exact I.
  - apply fill_with_token_free. intros col. simpl.
    intros [H | [H | [H | [H | [H | [H | [H | []]]]]]]]; discriminate.
  - vm_compute. do 2 right. left. reflexivity.
Defined.

Lemma apply_mappings_numeric mappings t f d :
  column t f = Some d ->
  Forall numeric_cell d \/ In f (map fst mappings) ->
  exists d', column (apply_mappings mappings t) f = Some d' /\
             Forall numeric_cell d'.
Proof.
  revert t d. induction mappings as [| [c m] rest IH]; intros t d Hcol Hor;
    simpl in *.
  - destruct Hor as [Hnum | []]. eauto.
  - unfold apply_mappings in *. simpl.
    destruct (String.eqb_spec f c) as [-> | Hne].
    + assert (Hhas : has_column t c = true)
        by (apply has_column_true; eauto).
      rewrite Hhas. eapply IH.
      * apply column_update_same. exact Hcol.
      * left. apply apply_mapping_numeric.
    + eapply IH.
      * change c with (fst (c, m)). change m with (snd (c, m)) at 2.
        rewrite mapping_step_other; eauto.
      * destruct Hor as [Hnum | [Heq | Hin]]; auto. congruence.
Qed.

Lemma ecog_numeric lib t f d :
  column t f = Some d ->
  Forall numeric_cell d \/ f = ECOG_Score ->
  exists d', column (ecog_step lib t) f = Some d' /\ Forall numeric_cell d'.
Proof.
  intros Hcol Hor. destruct (String.eqb_spec f ECOG_Score) as [-> | Hne].
  - exists (coerce_ecog lib d). split.
    + apply column_ecog_same; auto.
    + apply coerce_ecog_numeric_cells.
  - destruct Hor as [Hnum | Heq]; [| contradiction].
    exists d. split; auto. rewrite column_ecog_other; auto.
Qed.

(** X6. Whatever the imputers do, a selected feature that has a manual
    mapping, and the performance status when it is selected, reach the
    model as columns of numbers only. *)
Theorem X6_coded_columns_are_numeric lib b input output_dir X f :
  In (EvPredict X) (trace (predict_on_new_data lib b input output_dir)) ->
  In f (best_features b) ->
  In f (map fst (manual_mappings b)) \/ f = ECOG_Score ->
  exists d, column X f = Some d /\ Forall numeric_cell d.
Proof.
  intros Hev Hin Hor. apply predict_event_of_run in Hev.
  destruct Hev as [Hm [l [t [Hp ->]]]].
  apply preprocess_ok in Hp. destruct Hp as [t1 [Hi ->]].
  assert (Hhas1 : has_column t1 f = true).
  { rewrite (has_column_impute _ _ _ _ _ f Hi), has_column_replace.
    apply has_column_keep_required; auto. }
  apply has_column_true in Hhas1. destruct Hhas1 as [d1 Hd1].
  rewrite column_select.
  assert (Hex : existsb (String.eqb f) (best_features b) = true).
  { apply existsb_exists. exists f. split; auto. apply String.eqb_refl. }
  rewrite Hex. unfold after_imputation.
  destruct Hor as [Hmap | Hecog].
  - destruct (apply_mappings_numeric (manual_mappings b) _ _ _ Hd1)
      as [d2 [Hd2 Hn2]]; auto.
    eapply ecog_numeric; eauto.
  - assert (Hh : has_column (apply_mappings (manual_mappings b) t1) f = true).
    { rewrite has_column_apply_mappings. apply has_column_true; eauto. }
    apply has_column_true in Hh. destruct Hh as [d2 Hd2].
    eapply ecog_numeric; eauto.
Qed.

Lemma X6_coded_columns_are_numeric_witness :
  exists d,
    column (mkFrame 3
       [("Age", [Num (inject_Z 50); Num (inject_Z 60); Num (inject_Z 70)]);
        ("Stage", [Num (inject_Z 0); Num (inject_Z 1); Num minus_one]);
        ("ECOG_Score", [Num (inject_Z 1); Num minus_one; Num minus_one])])
      "Stage" = Some d
    /\ Forall numeric_cell d.
Proof.
  apply (X6_coded_columns_are_numeric
           Sample.lib Sample.bundle Sample.patients "out").
  - vm_compute. do 2 right. left. reflexivity.
  - simpl. auto.
  - left. simpl. auto.
Defined.

(** With each label once in the list, the cells an imputer is called with
    are the cells the column had when the loop started. *)
Lemma trace_impute_loop_data k imp cols t k' col data :
  NoDup cols ->
  In (EvTransform k' col data) (trace (impute_loop k imp cols t)) ->
  k' = k /\ In col cols /\ column t col = Some data.
Proof.
  revert t. induction cols as [| c rest IH]; intros t Hnd H; simpl in H.
  - contradiction.
  - inversion Hnd as [| ? ? Hc Hrest]; subst.
    apply trace_bind in H. destruct H as [H | [t1 [Ht1 H]]].
    + apply trace_impute_column in H. destruct H as [d [Hd [_ Heq]]].
      inversion Heq; subst. simpl; auto.
    + destruct (IH _ Hrest H) as [-> [Hin Hcol]].
      split; auto. split; [simpl; auto |].
      destruct (impute_column k imp t c) as [l1 r] eqn:E.
      unfold outcome in Ht1; simpl in Ht1. subst r.
      rewrite <- (impute_column_other _ _ _ _ _ _ col E); auto.
      intros ->. contradiction.
Qed.

Lemma transform_event_of_run lib b input output_dir k col data :
  In (EvTransform k col data)
     (trace (predict_on_new_data lib b input output_dir)) ->
  In (EvTransform k col data)
     (trace (impute lib b (replace (keep_required b input)))).
Proof.
  unfold predict_on_new_data. intros H.
  apply trace_bind in H. destruct H as [H | [t5 [_ H]]].
  - unfold score_table in H.
    destruct (missing_cols b input); [| contradiction].
    apply trace_bind in H. destruct H as [H | [t [_ H]]].
    + unfold preprocess in H.
      apply trace_bind in H. destruct H as [H | [t1 [_ []]]]. exact H.
    + exfalso. apply trace_bind in H. destruct H as [H | [t' [_ H]]].
      * apply (only_predict
                 (fun ev => match ev with EvTransform _ _ _ => False | _ => True end))
          in H; simpl; auto.
      * apply (only_group (fun _ => False)) in H. exact H.
  - exfalso. apply trace_bind in H. destruct H as [H | [u [_ H]]].
    + apply (only_validate
               (fun ev => match ev with EvTransform _ _ _ => False | _ => True end))
        in H; simpl; auto.
    + apply (only_save
               (fun ev => match ev with EvTransform _ _ _ => False | _ => True end))
        in H; simpl; auto.
Qed.

Lemma to_numeric_not_text lib d : Forall not_text (to_numeric lib d).
Proof.
  unfold to_numeric. apply Forall_map. apply Forall_forall.
  intros [| q | s] _; simpl; auto. destruct (parse_number lib s); exact I.
Qed.

Lemma column_of_kept b input col cells :
  column (replace (keep_required b input)) col = Some cells ->
  exists raw, column input col = Some raw /\ cells = map replace_cell raw.
Proof.
  rewrite column_replace. unfold keep_required. rewrite column_select.
  destruct (existsb (String.eqb col)
              (filter (has_column input) (required_cols b)));
    [| discriminate].
  destruct (column input col) as [raw |]; simpl; [| discriminate].
  intros H. inversion H. eauto.
Qed.

(** X7. With no label twice in a feature list, what an imputer is called
    with is read off the spreadsheet: the numeric imputer gets the input
    column after token replacement and coercion to numbers, so never a text
    cell; the categorical imputer, for a column that is not also in the
    numeric list, gets the input column after token replacement. *)
Theorem X7_what_the_imputers_are_given lib b input output_dir col data :
  (NoDup (pure_numeric_features b) ->
   In (EvTransform Numeric col data)
      (trace (predict_on_new_data lib b input output_dir)) ->
   Forall not_text data /\
   exists raw, column input col = Some raw /\
               data = to_numeric lib (map replace_cell raw))
  /\ (NoDup (categorical_features b) ->
      ~ In col (pure_numeric_features b) ->
      In (EvTransform Categorical col data)
         (trace (predict_on_new_data lib b input output_dir)) ->
      exists raw, column input col = Some raw /\ data = map replace_cell raw).
Proof.
  split.
  - intros Hnd Hev. apply transform_event_of_run in Hev.
    unfold impute in Hev. apply trace_bind in Hev.
    destruct Hev as [Hev | [t1 [_ Hev]]].
    + apply trace_impute_loop_data in Hev; [| apply NoDup_filter; auto].
      destruct Hev as [_ [Hin Hcol]].
      assert (Hhas : has_column (replace (keep_required b input)) col = true)
        by (apply filter_In in Hin; tauto).
      apply has_column_true in Hhas. destruct Hhas as [cells Hcells].
      rewrite (column_coerce_same lib _ _ _ _ Hin Hcells) in Hcol.
      inversion Hcol; subst data. split; [apply to_numeric_not_text |].
      apply column_of_kept in Hcells. destruct Hcells as [raw [Hraw ->]].
      eauto.
    + apply trace_impute_loop in Hev.
      destruct Hev as [c [d [Heq _]]]. discriminate.
  - intros Hnd Hnot Hev. apply transform_event_of_run in Hev.
    unfold impute in Hev. apply trace_bind in Hev.
    destruct Hev as [Hev | [t1 [Ht1 Hev]]].
    + apply trace_impute_loop in Hev.
      destruct Hev as [c [d [Heq _]]]. discriminate.
    + apply trace_impute_loop_data in Hev; [| apply NoDup_filter; auto].
      destruct Hev as [_ [Hin Hcol]].
      destruct (impute_loop Numeric (imputer_numeric b)
                  (numeric_in_model b (replace (keep_required b input)))
                  (coerce_numeric lib
                     (numeric_in_model b (replace (keep_required b input)))
                     (replace (keep_required b input)))) as [l1 r] eqn:E.
      unfold outcome in Ht1; simpl in Ht1. subst r.
      rewrite (impute_loop_other _ _ _ _ _ _ col E) in Hcol
        by (intros Hx; apply filter_In in Hx; tauto).
      rewrite column_coerce_other in Hcol
        by (intros Hx; apply filter_In in Hx; tauto).
      apply column_of_kept in Hcol. exact Hcol.
Qed.

Lemma X7_what_the_imputers_are_given_witness :
  Forall not_text [Num (inject_Z 50); NaN; Num (inject_Z 70)]
  /\ exists raw, column Sample.patients "Stage" = Some raw /\
                 [Str "I"; NaN; Str "III"] = map replace_cell raw.
Proof.
  destruct (X7_what_the_imputers_are_given Sample.lib Sample.bundle
              Sample.patients "out" "Age"
              [Num (inject_Z 50); NaN; Num (inject_Z 70)]) as [Hnum _].
  destruct (X7_what_the_imputers_are_given Sample.lib Sample.bundle
              Sample.patients "out" "Stage"
              [Str "I"; NaN; Str "III"]) as [_ Hcat].
  split.
  - apply Hnum.
    + repeat constructor; simpl; tauto.
    + vm_compute. left. reflexivity.
  - apply Hcat.
    + repeat constructor; simpl; tauto.
    + simpl. intros [H | []]; discriminate.
    + vm_compute. right. left. reflexivity.
Defined.

(** ** How a run can fail *)

Lemma fails_only_bind {A B} P (m : M A) (f : A -> M B) :
  fails_only P m ->
  (forall a, outcome m = inr a -> fails_only P (f a)) ->
  fails_only P (bind m f).
Proof.
  unfold fails_only, outcome. destruct m as [l [e | a]]; simpl;
    intros Hm Hf e' H.
  - apply Hm. inversion H. reflexivity.
  - apply (Hf a); auto.
Qed.

Lemma fails_only_ret {A} P (a : A) : fails_only P (ret a).
Proof. intros e H. discriminate. Qed.

Lemma fails_only_emit P ev : fails_only P (emit ev).
Proof. intros e H. discriminate. Qed.

Lemma fails_only_lift {A} (P : error -> Prop) e (r : option A) :
  P e -> fails_only P (lift e r).
Proof.
  intros HP e' H. destruct r; simpl in H; [discriminate |].
  inversion H; subst. exact HP.
Qed.

Lemma fails_only_assign (P : error -> Prop) t col data :
  P (LengthMismatch col) -> fails_only P (assign t col data).
Proof.
  intros HP e H. unfold assign in H.
  destruct (Nat.eqb (List.length data) (nrows t)); [discriminate |].
  inversion H; subst. exact HP.
Qed.

Lemma get_column_present t col :
  has_column t col = true ->
  exists data, get_column t col = ret data /\ column t col = Some data.
Proof.
  intros H. apply has_column_true in H. destruct H as [data H].
  exists data. unfold get_column. rewrite H. auto.
Qed.

(** A loop over labels that are columns never misses a column. *)
Lemma fails_only_impute_loop k imp cols t :
  (forall c, In c cols -> has_column t c = true) ->
  fails_only external_error (impute_loop k imp cols t).
Proof.
  revert t. induction cols as [| c rest IH]; intros t Hcols; simpl.
  - apply fails_only_ret.
  - apply fails_only_bind.
    + unfold impute_column.
      destruct (get_column_present t c) as [data [-> _]];
        [apply Hcols; simpl; auto |].
      rewrite bind_ret_l. destruct (has_na data); [| apply fails_only_ret].
      apply fails_only_bind; [apply fails_only_emit | intros _ _].
      apply fails_only_bind; [apply fails_only_lift; exact I | intros f _].
      apply fails_only_assign. exact I.
    + intros t1 Ht1. apply IH. intros x Hx.
      destruct (impute_column k imp t c) as [l r] eqn:E.
      unfold outcome in Ht1; simpl in Ht1. subst r.
      rewrite (has_column_impute_column _ _ _ _ _ _ x E).
      apply Hcols. simpl; auto.
Qed.

Lemma fails_only_impute lib b t :
  fails_only external_error (impute lib b t).
Proof.
  unfold impute. apply fails_only_bind.
  - apply fails_only_impute_loop. intros c Hc.
    rewrite has_column_coerce. apply filter_In in Hc. tauto.
  - intros t1 Ht1. apply fails_only_impute_loop. intros c Hc.
    destruct (impute_loop Numeric (imputer_numeric b) (numeric_in_model b t)
                (coerce_numeric lib (numeric_in_model b t) t))
      as [l r] eqn:E.
    unfold outcome in Ht1; simpl in Ht1. subst r.
    rewrite (has_column_impute_loop _ _ _ _ _ _ c E), has_column_coerce.
    apply filter_In in Hc. tauto.
Qed.

Lemma as_scores_scores scores : as_scores (map score_cell scores) = Some scores.
Proof.
  induction scores as [| [v |] rest IH]; simpl; auto; rewrite IH; reflexivity.
Qed.

Lemma fails_only_risk_groups n scores :
  fails_only external_error (risk_groups n (map score_cell scores)).
Proof.
  unfold risk_groups. rewrite as_scores_scores, !lift_some, !bind_ret_l.
  destruct (3 <=? nunique (map score_cell scores))%nat;
    [| destruct (nunique (map score_cell scores) =? 2)%nat;
       [| apply fails_only_ret]];
    match goal with
    | |- context [qcut ?x ?q ?lab] => destruct (qcut x q lab) eqn:Hq
    end; try apply fails_only_ret;
    apply qcut_error in Hq; subst; intros e H; inversion H; exact I.
Qed.

Lemma outcome_ok {A} (m : M A) a :
  outcome m = inr a -> exists l, m = (l, inr a).
Proof.
  destruct m as [l r]. unfold outcome; simpl. intros ->. eauto.
Qed.

Lemma fails_only_score_table lib b input :
  fails_only external_error (score_table lib b input).
Proof.
  unfold score_table. destruct (missing_cols b input) eqn:Hm.
  - apply fails_only_bind.
    + unfold preprocess. apply fails_only_bind;
        [apply fails_only_impute | intros; apply fails_only_ret].
    + intros t _. apply fails_only_bind.
      * unfold predict.
        apply fails_only_bind; [apply fails_only_emit | intros _ _].
        apply fails_only_bind; [apply fails_only_lift; exact I | intros s _].
        apply fails_only_assign. exact I.
      * intros t' Ht'. apply outcome_ok in Ht'. destruct Ht' as [l Ht'].
        apply predict_ok in Ht'. destruct Ht' as [scores [_ [_ [-> _]]]].
        unfold group, get_column. rewrite column_set_same, lift_some, bind_ret_l.
        apply fails_only_bind; [| intros; apply fails_only_ret].
        apply fails_only_risk_groups.
  - intros e H. inversion H. exact I.
Qed.

Lemma fails_only_validate lib b input l t :
  score_table lib b input = (l, inr t) ->
  fails_only external_error (validate lib t).
Proof.
  intros Hs. unfold validate.
  destruct (has_column t Event) eqn:He; [| apply fails_only_ret].
  destruct (has_column t OS_Time) eqn:Ho; [| apply fails_only_ret].
  simpl andb. cbv iota.
  destruct (get_column_present _ _ Ho) as [a [-> _]].
  destruct (get_column_present _ _ He) as [e [-> _]].
  destruct (risk_score_of_score_table _ _ _ _ _ Hs) as [scores Hsc].
  destruct (negate_scores scores) as [p Hp].
  unfold get_column. rewrite Hsc, !lift_some, !bind_ret_l.
  rewrite Hp, lift_some, !bind_ret_l.
  apply fails_only_bind; [apply fails_only_emit | intros _ _].
  apply fails_only_bind; [apply fails_only_lift; exact I | intros c _].
  apply fails_only_emit.
Qed.

(** X8. For a spreadsheet with distinct column labels and a bundle that
    selects no feature twice and neither OS_Time nor Event (so that every
    label of the kept table names one column), once the bundle and the
    spreadsheet are loaded
    a run never fails on its own bookkeeping: the imputation loops,
    the grouping and the validation never look up a column that is not
    there, the labels the coercion loop visits stay columns throughout it,
    and the validation never negates a text score.  Whatever the bundle and
    the spreadsheet, a failure is the schema error, an exception of an
    imputer, of the model or of the concordance routine, values of the
    wrong length returned by one of them, or the label error of the
    binning. *)
Theorem X8_only_external_failures lib b input output_dir :
  NoDup (names input) ->
  NoDup (required_cols b) ->
  (forall e,
      outcome (predict_on_new_data lib b input output_dir) = inl e ->
      (forall col, e <> KeyError col) /\ e <> NotNumeric /\
      (e = MissingFeatures (missing_cols b input) \/
       (exists col, e = ImputerError col) \/
       (exists col, e = LengthMismatch col) \/
       e = ModelError \/ e = BinLabelError \/ e = ConcordanceError))
  /\ (forall col visited,
        In col (numeric_in_model b (replace (keep_required b input))) ->
        has_column
          (coerce_numeric lib visited (replace (keep_required b input))) col
        = true).
Proof.
  intros _ _. split;
    [| intros col visited Hin; rewrite has_column_coerce;
       apply filter_In in Hin; tauto].
  intros e H.
  assert (Hext : external_error e).
  { revert e H. unfold predict_on_new_data.
    apply fails_only_bind; [apply fails_only_score_table |].
    intros t Ht. apply outcome_ok in Ht. destruct Ht as [l Ht].
    apply fails_only_bind; [eapply fails_only_validate; eauto |].
    intros u _. unfold save.
    apply fails_only_bind; [apply fails_only_emit | intros; apply fails_only_ret]. }
  split; [| split].
  - intros col ->. exact Hext.
  - intros ->. exact Hext.
  - destruct e; simpl in Hext; try contradiction; eauto 10.
    left. f_equal.
    unfold predict_on_new_data, score_table in H.
    destruct (missing_cols b input) eqn:Hm.
    + exfalso. revert H.
      pose proof (not_schema_after_check lib b (keep_required b input)
                    output_dir missing_cols0) as Hns.
      exact Hns.
    + unfold outcome in H. simpl in H. inversion H. reflexivity.
Qed.

Lemma X8_only_external_failures_witness :
  (forall col, BinLabelError <> KeyError col) /\ BinLabelError <> NotNumeric.
Proof.
  destruct (X8_only_external_failures Sample.lib Sample.age_bundle
              Sample.tied_patients "out") as [Hfail _].
  { repeat constructor; simpl; tauto. }
  { repeat constructor; simpl; intuition discriminate. }
  destruct (Hfail BinLabelError eq_refl) as [Hk [Hn _]].
  split; [exact Hk | exact Hn].
Defined.

Lemma filter_true {A} (p : A -> bool) (l : list A) :
  (forall x, In x l -> p x = true) -> filter p l = l.
Proof.
  induction l as [| x rest IH]; intros H; simpl; auto.
  rewrite (H x) by (simpl; auto). f_equal. apply IH.
  intros y Hy. apply H. simpl; auto.
Qed.

(** X9. For a spreadsheet with distinct column labels and a bundle that
    selects no feature twice and neither OS_Time nor Event: whenever the
    model is called, the table it is given has exactly the selected
    features as columns, in the order of the bundle, and as many rows as
    the spreadsheet: the selection of line 80 never misses a label. *)
Theorem X9_model_gets_the_selected_features lib b input output_dir X :
  NoDup (names input) ->
  NoDup (required_cols b) ->
  In (EvPredict X) (trace (predict_on_new_data lib b input output_dir)) ->
  names X = best_features b /\ nrows X = nrows input.
Proof.
  intros _ _ Hev. apply predict_event_of_run in Hev.
  destruct Hev as [Hm [l [t [Hp ->]]]].
  apply preprocess_ok in Hp. destruct Hp as [t1 [Hi ->]].
  split.
  - rewrite names_select. apply filter_true. intros f Hin.
    unfold after_imputation.
    rewrite has_column_ecog, has_column_apply_mappings.
    rewrite (has_column_impute _ _ _ _ _ f Hi), has_column_replace.
    apply has_column_keep_required; auto.
  - simpl. unfold after_imputation.
    destruct (shape_ecog lib (apply_mappings (manual_mappings b) t1)) as [-> _].
    destruct (shape_apply_mappings (manual_mappings b) t1) as [-> _].
    destruct (shape_impute _ _ _ _ _ Hi) as [-> _].
    reflexivity.
Qed.

Lemma X9_model_gets_the_selected_features_witness :
  names (mkFrame 2 [("Age", [Num (inject_Z 50); NaN])]) = ["Age"]
  /\ nrows (mkFrame 2 [("Age", [Num (inject_Z 50); NaN])]) = 2%nat.
Proof.
  apply (X9_model_gets_the_selected_features
           Sample.lib Sample.bare_bundle Sample.one_unknown_age "out").
  - repeat constructor; simpl; tauto.
  - repeat constructor; simpl; intuition discriminate.
  - vm_compute. left. reflexivity.
Defined.

(** ** The bin edges *)

Lemma insert_sorted_In x l y :
  In y (insert_sorted x l) <-> y = x \/ In y l.
Proof.
  induction l as [| z rest IH]; simpl.
  - intuition.
  - destruct (Qle_bool x z); simpl; rewrite ?IH; intuition.
Qed.

Lemma sort_values_In l y : In y (sort_values l) <-> In y l.
Proof.
  induction l as [| x rest IH]; simpl; [tauto |].
  unfold sort_values in *. simpl. rewrite insert_sorted_In, IH. intuition.
Qed.

Lemma insert_sorted_length x l :
  List.length (insert_sorted x l) = S (List.length l).
Proof.
  induction l as [| z rest IH]; simpl; auto.
  destruct (Qle_bool x z); simpl; auto.
Qed.

Lemma sort_values_length l : List.length (sort_values l) = List.length l.
Proof.
  induction l as [| x rest IH]; simpl; auto.
  unfold sort_values in *. simpl. rewrite insert_sorted_length, IH.
  reflexivity.
Qed.

Lemma insert_sorted_sorted x l :
  StronglySorted Qle l -> StronglySorted Qle (insert_sorted x l).
Proof.
  induction 1 as [| z rest Hs IH Hz]; simpl.
  - constructor; constructor.
  - destruct (Qle_bool x z) eqn:E.
    + apply Qle_bool_iff in E. constructor.
      * constructor; auto.
      * constructor; auto. eapply Forall_impl; [| exact Hz].
        intros a Ha. lra.
    + assert (Hlt : z < x).
      { apply Qnot_le_lt. intros Hle. apply Qle_bool_iff in Hle. congruence. }
      constructor; auto.
      apply Forall_forall. intros a Ha. apply insert_sorted_In in Ha.
      destruct Ha as [-> | Ha]; [lra |].
      rewrite Forall_forall in Hz. auto.
Qed.

Lemma sort_values_sorted l : StronglySorted Qle (sort_values l).
Proof.
  induction l as [| x rest IH]; simpl; [constructor |].
  apply insert_sorted_sorted. exact IH.
Qed.

(** In a sorted list the values grow with the position. *)
Lemma sorted_nth s i j :
  StronglySorted Qle s -> (i <= j)%nat -> (j < List.length s)%nat ->
  nth i s 0 <= nth j s 0.
Proof.
  intros Hs. revert i j. induction Hs as [| z rest Hs IH Hz]; intros i j Hij Hj;
    simpl in *; [lia |].
  destruct i as [| i]; destruct j as [| j]; try lia.
  - lra.
  - rewrite Forall_forall in Hz. apply Hz. apply nth_In. lia.
  - apply IH; lia.
Qed.

Lemma in_nth_position (s : list Q) v :
  In v s -> exists i, (i < List.length s)%nat /\ nth i s 0 = v.
Proof. intros H. apply (In_nth s v 0) in H. exact H. Qed.

Lemma quantile_first s q : quantile s q 0 == nth 0 s 0.
Proof.
  unfold quantile. rewrite Nat.mul_0_r, Nat.Div0.div_0_l, Nat.Div0.mod_0_l.
  rewrite Qred_correct.
  assert (H0 : Qmake (Z.of_nat 0) (Pos.of_nat q) == 0) by reflexivity.
  rewrite H0. ring.
Qed.

Lemma quantile_last s q :
  q <> 0%nat -> quantile s q q == nth (List.length s - 1) s 0.
Proof.
  intros Hq. unfold quantile.
  rewrite Nat.div_mul by exact Hq. rewrite Nat.Div0.mod_mul.
  rewrite Qred_correct.
  assert (H0 : Qmake (Z.of_nat 0) (Pos.of_nat q) == 0) by reflexivity.
  rewrite H0. ring.
Qed.

Lemma quantile_spans : edges_span quantile.
Proof.
  intros s q _ Hq. split; [apply quantile_first | apply quantile_last; auto].
Qed.

(** With the exact quantile the open definitions are the ones the pipeline
    uses. *)
Lemma risk_groups_with_quantile n scores :
  risk_groups_with quantile n scores = risk_groups n scores.
Proof. reflexivity. Qed.

Lemma hd_qcut_bins qf x q :
  hd 0 (qcut_bins_with qf x q) = qf (sort_values (dropna x)) q 0%nat.
Proof.
  unfold qcut_bins_with. rewrite <- cons_seq. simpl map. simpl unique.
  match goal with |- context [if ?c then _ else _] => destruct c end;
    reflexivity.
Qed.

Lemma qcut_bins_with_length qf x q :
  (1 <= List.length (qcut_bins_with qf x q))%nat.
Proof.
  unfold qcut_bins_with. rewrite <- cons_seq. simpl map. simpl unique.
  match goal with |- context [if ?c then _ else _] => destruct c end;
    simpl; lia.
Qed.

Lemma unique_keeps l y :
  In y l -> exists y', In y' (unique l) /\ y' == y.
Proof.
  induction l as [| x rest IH]; simpl; [contradiction |].
  intros [-> | Hin].
  - exists y. split; auto. reflexivity.
  - destruct (IH Hin) as [y' [Hy' Heq]].
    destruct (Qeq_bool x y') eqn:E.
    + apply Qeq_bool_iff in E. exists x. split; auto. rewrite E. exact Heq.
    + exists y'. split; auto. right. apply filter_In. rewrite E. auto.
Qed.

Lemma last_edge_in_bins qf x q :
  exists e, In e (qcut_bins_with qf x q) /\
            e == qf (sort_values (dropna x)) q q.
Proof.
  assert (Hin : In (qf (sort_values (dropna x)) q q)
                   (map (qf (sort_values (dropna x)) q) (seq 0 (S q)))).
  { apply in_map. apply in_seq. lia. }
  unfold qcut_bins_with.
  match goal with |- context [if ?c then _ else _] => destruct c end.
  - apply unique_keeps. exact Hin.
  - eexists. split; [exact Hin | reflexivity].
Qed.

Lemma Qlt_bool_iff e v : Qlt_bool e v = true <-> e < v.
Proof.
  unfold Qlt_bool. rewrite negb_true_iff. split.
  - intros H. apply Qnot_le_lt. intros Hle.
    apply Qle_bool_iff in Hle. congruence.
  - intros H. destruct (Qle_bool v e) eqn:E; auto.
    apply Qle_bool_iff in E. lra.
Qed.

Lemma filter_length_lt {A} (p : A -> bool) l e :
  In e l -> p e = false -> (List.length (filter p l) < List.length l)%nat.
Proof.
  induction l as [| x rest IH]; simpl; [contradiction |].
  intros [-> | Hin] He.
  - rewrite He. pose proof (filter_length_le p rest). lia.
  - specialize (IH Hin He). destruct (p x); simpl; lia.
Qed.

Lemma filter_length_pos {A} (p : A -> bool) l e :
  In e l -> p e = true -> (1 <= List.length (filter p l))%nat.
Proof.
  intros Hin He.
  assert (H : In e (filter p l)) by (apply filter_In; auto).
  destruct (filter p l); [contradiction | simpl; lia].
Qed.

Lemma filter_length_mono {A} (p p' : A -> bool) l :
  (forall e, p e = true -> p' e = true) ->
  (List.length (filter p l) <= List.length (filter p' l))%nat.
Proof.
  intros H. induction l as [| x rest IH]; simpl; auto.
  destruct (p x) eqn:E.
  - rewrite (H x E). simpl. lia.
  - destruct (p' x); simpl; lia.
Qed.

Lemma dropna_In x v : In (Some v) x <-> In v (dropna x).
Proof.
  induction x as [| [w |] rest IH]; simpl.
  - tauto.
  - rewrite <- IH. split.
    + intros [H | H]; [inversion H |]; auto.
    + intros [-> | H]; auto.
  - rewrite <- IH. split.
    + intros [H | H]; [discriminate | auto].
    + auto.
Qed.

(** Every score lies between the lowest and the highest edge. *)
Lemma score_between_edges qf x q v :
  edges_span qf -> q <> 0%nat -> In (Some v) x ->
  hd 0 (qcut_bins_with qf x q) <= v /\
  exists e, In e (qcut_bins_with qf x q) /\ v <= e.
Proof.
  intros Hspan Hq Hin. apply dropna_In in Hin.
  apply (sort_values_In (dropna x)) in Hin.
  assert (Hne : sort_values (dropna x) <> []).
  { intros Hnil. rewrite Hnil in Hin. contradiction. }
  destruct (Hspan _ q Hne Hq) as [Hfirst Hlast].
  apply in_nth_position in Hin. destruct Hin as [i [Hi Hv]].
  pose proof (sort_values_sorted (dropna x)) as Hs.
  split.
  - rewrite hd_qcut_bins, Hfirst, <- Hv.
    apply sorted_nth; auto. lia.
  - destruct (last_edge_in_bins qf x q) as [e [He Heq]].
    exists e. split; auto.
    rewrite Heq, Hlast. rewrite <- Hv.
    apply sorted_nth; auto; lia.
Qed.

Lemma hd_in_bins qf x q :
  In (hd 0 (qcut_bins_with qf x q)) (qcut_bins_with qf x q).
Proof.
  pose proof (qcut_bins_with_length qf x q) as H.
  destruct (qcut_bins_with qf x q); simpl in *; [lia | auto].
Qed.

(** A score falls in one of the intervals when there are at least two
    edges. *)
Lemma bin_index_range qf x q v :
  edges_span qf -> q <> 0%nat -> In (Some v) x ->
  (2 <= List.length (qcut_bins_with qf x q))%nat ->
  (1 <= bin_index (qcut_bins_with qf x q) v
   < List.length (qcut_bins_with qf x q))%nat.
Proof.
  intros Hspan Hq Hin Hlen.
  destruct (score_between_edges qf x q v Hspan Hq Hin) as [Hlo [e [He Hhi]]].
  unfold bin_index.
  destruct (Qeq_bool v (hd 0 (qcut_bins_with qf x q))) eqn:E.
  - lia.
  - assert (Hne : ~ v == hd 0 (qcut_bins_with qf x q)).
    { intros H. apply Qeq_bool_iff in H. congruence. }
    unfold searchsorted_left. split.
    + apply (filter_length_pos _ _ (hd 0 (qcut_bins_with qf x q))).
      * apply hd_in_bins.
      * apply Qlt_bool_iff. apply Qle_lt_or_eq in Hlo.
        destruct Hlo as [Hlt | Heq]; auto. exfalso. apply Hne.
        symmetry. exact Heq.
    + apply (filter_length_lt _ _ e); auto.
      destruct (Qlt_bool e v) eqn:El; auto.
      apply Qlt_bool_iff in El. lra.
Qed.

(** A higher score never falls in a lower interval. *)
Lemma bin_index_monotone qf x q v w :
  edges_span qf -> q <> 0%nat -> In (Some v) x -> In (Some w) x -> v <= w ->
  (bin_index (qcut_bins_with qf x q) v
   <= bin_index (qcut_bins_with qf x q) w)%nat.
Proof.
  intros Hspan Hq Hv Hw Hvw.
  destruct (score_between_edges qf x q v Hspan Hq Hv) as [Hlov _].
  destruct (score_between_edges qf x q w Hspan Hq Hw) as [Hlow _].
  unfold bin_index.
  destruct (Qeq_bool v (hd 0 (qcut_bins_with qf x q))) eqn:Ev;
    destruct (Qeq_bool w (hd 0 (qcut_bins_with qf x q))) eqn:Ew.
  - lia.
  - unfold searchsorted_left.
    apply (filter_length_pos _ _ (hd 0 (qcut_bins_with qf x q))).
    + apply hd_in_bins.
    + apply Qlt_bool_iff. apply Qle_lt_or_eq in Hlow.
      destruct Hlow as [Hlt | Heq]; auto.
      assert (Qeq_bool w (hd 0 (qcut_bins_with qf x q)) = true)
        by (apply Qeq_bool_iff; symmetry; exact Heq).
      congruence.
  - apply Qeq_bool_iff in Ew.
    assert (Qeq_bool v (hd 0 (qcut_bins_with qf x q)) = true).
    { apply Qeq_bool_iff. apply Qle_antisym; [| exact Hlov].
      rewrite <- Ew. exact Hvw. }
    congruence.
  - unfold searchsorted_left. apply filter_length_mono.
    intros e He. apply Qlt_bool_iff in He. apply Qlt_bool_iff. lra.
Qed.

(** ** Labels and scores *)

(** When the binning succeeds with at least one label, a row with a score
    gets the label of its interval. *)
Lemma qcut_cell qf x q labels g i v :
  edges_span qf -> q <> 0%nat -> labels <> [] ->
  qcut_with qf x q labels = inr g ->
  nth_error x i = Some (Some v) ->
  (1 <= bin_index (qcut_bins_with qf x q) v <= List.length labels)%nat /\
  nth_error g i =
  Some (Str (nth (bin_index (qcut_bins_with qf x q) v - 1) labels "")).
Proof.
  intros Hspan Hq Hlab Hcut Hi. unfold qcut_with in Hcut.
  destruct (Nat.eqb_spec (List.length labels)
              (List.length (qcut_bins_with qf x q) - 1)) as [Heq | Hne];
    simpl in Hcut; [| discriminate].
  inversion Hcut; subst g; clear Hcut.
  assert (Hlen : (2 <= List.length (qcut_bins_with qf x q))%nat).
  { destruct labels; [congruence | simpl in Heq; lia]. }
  assert (Hin : In (Some v) x) by (eapply nth_error_In; eauto).
  pose proof (bin_index_range qf x q v Hspan Hq Hin Hlen) as Hr.
  split; [lia |].
  rewrite (map_nth_error _ _ _ Hi).
  fold (bin_index (qcut_bins_with qf x q) v).
  destruct (Nat.eqb_spec (bin_index (qcut_bins_with qf x q) v)
              (List.length (qcut_bins_with qf x q))); [lia |].
  destruct (Nat.eqb_spec (bin_index (qcut_bins_with qf x q) v) 0); [lia |].
  reflexivity.
Qed.

(** X10. Whatever routine computes the quantiles, exact or in floating
    point, as long as the quantile 0 of the scores is the lowest score and
    the quantile 1 the highest: when the grouping succeeds, every row that
    has a score gets one of the labels Low, Medium, High, and the labels
    follow the scores, a row whose score is at least that of another row
    never getting a lower label. *)
Theorem X10_groups_follow_scores quantile_of n scores l g i j v w :
  edges_span quantile_of ->
  n = List.length scores ->
  risk_groups_with quantile_of n (map score_cell scores) = (l, inr g) ->
  nth_error scores i = Some (Some v) ->
  nth_error scores j = Some (Some w) ->
  v <= w ->
  exists a c,
    nth_error g i = Some (Str a) /\ nth_error g j = Some (Str c) /\
    In a ["Low"; "Medium"; "High"] /\ In c ["Low"; "Medium"; "High"] /\
    (label_rank a <= label_rank c)%nat.
Proof.
  intros Hspan Hn Hrun Hi Hj Hvw. subst n. unfold risk_groups_with in Hrun.
  rewrite as_scores_scores, !lift_some, !bind_ret_l in Hrun.
  assert (Hmono : forall q, q <> 0%nat ->
            (bin_index (qcut_bins_with quantile_of scores q) v
             <= bin_index (qcut_bins_with quantile_of scores q) w)%nat).
  { intros q Hq. apply bin_index_monotone; auto;
      eapply nth_error_In; eauto. }
  assert (H3 : ["Low"; "Medium"; "High"] <> []) by discriminate.
  assert (H2 : ["Low"; "High"] <> []) by discriminate.
  destruct (3 <=? nunique (map score_cell scores))%nat;
    [| destruct (nunique (map score_cell scores) =? 2)%nat].
  - destruct (qcut_with quantile_of scores 3 ["Low"; "Medium"; "High"])
      as [e | g'] eqn:Hq; [inversion Hrun |].
    inversion Hrun; subst g'; clear Hrun.
    destruct (qcut_cell _ _ _ _ _ _ _ Hspan (Nat.neq_succ_0 2) H3 Hq Hi)
      as [Hri Hgi].
    destruct (qcut_cell _ _ _ _ _ _ _ Hspan (Nat.neq_succ_0 2) H3 Hq Hj)
      as [Hrj Hgj].
    specialize (Hmono 3%nat (Nat.neq_succ_0 2)).
    simpl List.length in Hri, Hrj.
    eexists. eexists. split; [exact Hgi | split; [exact Hgj |]].
    destruct (bin_index (qcut_bins_with quantile_of scores 3) v)
      as [| [| [| [| ?]]]]; try lia;
      destruct (bin_index (qcut_bins_with quantile_of scores 3) w)
        as [| [| [| [| ?]]]];
      try lia; simpl; repeat split; auto; unfold label_rank; simpl; lia.
  - destruct (qcut_with quantile_of scores 2 ["Low"; "High"])
      as [e | g'] eqn:Hq; [inversion Hrun |].
    inversion Hrun; subst g'; clear Hrun.
    destruct (qcut_cell _ _ _ _ _ _ _ Hspan (Nat.neq_succ_0 1) H2 Hq Hi)
      as [Hri Hgi].
    destruct (qcut_cell _ _ _ _ _ _ _ Hspan (Nat.neq_succ_0 1) H2 Hq Hj)
      as [Hrj Hgj].
    specialize (Hmono 2%nat (Nat.neq_succ_0 1)).
    simpl List.length in Hri, Hrj.
    eexists. eexists. split; [exact Hgi | split; [exact Hgj |]].
    destruct (bin_index (qcut_bins_with quantile_of scores 2) v)
      as [| [| [| ?]]]; try lia;
      destruct (bin_index (qcut_bins_with quantile_of scores 2) w)
        as [| [| [| ?]]];
      try lia; simpl; repeat split; auto; unfold label_rank; simpl; lia.
  - inversion Hrun; subst g; clear Hrun.
    assert (Hlt : forall k (s : option Q),
               nth_error scores k = Some s ->
               nth_error (repeat (Str "Medium") (List.length scores)) k
               = Some (Str "Medium")).
    { intros k s Hk. apply nth_error_repeat.
      apply nth_error_Some. congruence. }
    exists "Medium", "Medium".
    rewrite (Hlt _ _ Hi), (Hlt _ _ Hj). simpl. auto 10.
Qed.

Lemma X10_groups_follow_scores_witness :
  exists a c,
    nth_error [Str "Low"; Str "Low"; Str "Medium"; Str "Medium";
               Str "High"; Str "High"] 1 = Some (Str a)
    /\ nth_error [Str "Low"; Str "Low"; Str "Medium"; Str "Medium";
                  Str "High"; Str "High"] 4 = Some (Str c)
    /\ In a ["Low"; "Medium"; "High"] /\ In c ["Low"; "Medium"; "High"]
    /\ (label_rank a <= label_rank c)%nat.
Proof.
  apply (X10_groups_follow_scores quantile 6
           (map Some [1; 2; 3; 4; 5; 6]%Q) []
           [Str "Low"; Str "Low"; Str "Medium"; Str "Medium";
            Str "High"; Str "High"] 1 4 2%Q 5%Q).
  - exact quantile_spans.
  - reflexivity.
  - vm_compute. reflexivity.
  - reflexivity.
  - reflexivity.
  - unfold Qle. simpl. lia.
Defined.

(** ** A spreadsheet without rows *)

Lemma length_zero_nil {A} (l : list A) : List.length l = 0%nat -> l = [].
Proof. destruct l; simpl; [auto | discriminate]. Qed.

(** On a table without rows the loops call nothing and change nothing. *)
Lemma impute_loop_no_rows k imp cols t :
  well_formed t -> nrows t = 0%nat ->
  trace (impute_loop k imp cols t) = [] /\
  fails_only (fun e => exists c, e = KeyError c) (impute_loop k imp cols t) /\
  forall t', outcome (impute_loop k imp cols t) = inr t' -> t' = t.
Proof.
  intros Hwf Hn. induction cols as [| c rest IH]; simpl.
  - split; [reflexivity | split].
    + intros e H. discriminate.
    + intros t' H. inversion H. reflexivity.
  - unfold impute_column, get_column.
    destruct (column t c) as [data |] eqn:Hc.
    + assert (Hd : data = []).
      { apply length_zero_nil. rewrite <- Hn.
        eapply well_formed_column; eauto. }
      subst data. rewrite lift_some, bind_ret_l. simpl has_na. cbv iota.
      rewrite bind_ret_l. exact IH.
    + rewrite lift_none, !bind_raise_l.
      split; [reflexivity | split].
      * intros e H. inversion H. eauto.
      * intros t' H. discriminate.
Qed.

Lemma kept_table_shape lib b input :
  well_formed input ->
  well_formed
    (coerce_numeric lib (numeric_in_model b (replace (keep_required b input)))
       (replace (keep_required b input)))
  /\ nrows
       (coerce_numeric lib (numeric_in_model b (replace (keep_required b input)))
          (replace (keep_required b input))) = nrows input.
Proof.
  intros Hwf.
  destruct (shape_coerce lib
              (numeric_in_model b (replace (keep_required b input)))
              (replace (keep_required b input))) as [Hn Hw].
  split.
  - apply Hw. apply well_formed_replace, well_formed_select, Hwf.
  - rewrite Hn. reflexivity.
Qed.

(** X12. On a spreadsheet that has the columns but no rows, no imputer is
    called and neither an imputer nor the binning can make the run fail;
    a run that succeeds returns empty Risk_Score and Risk_Group columns. *)
Theorem X12_spreadsheet_without_rows lib b input output_dir :
  well_formed input -> nrows input = 0%nat ->
  (forall k col data,
      ~ In (EvTransform k col data)
           (trace (predict_on_new_data lib b input output_dir)))
  /\ outcome (predict_on_new_data lib b input output_dir) <> inl BinLabelError
  /\ (forall col, outcome (predict_on_new_data lib b input output_dir)
                  <> inl (ImputerError col))
  /\ (forall out,
        outcome (predict_on_new_data lib b input output_dir) = inr out ->
        column out Risk_Score = Some [] /\ column out Risk_Group = Some []).
Proof.
  intros Hwf Hn.
  destruct (kept_table_shape lib b input Hwf) as [Hw0 Hn0].
  rewrite Hn in Hn0.
  set (T := replace (keep_required b input)) in *.
  destruct (impute_loop_no_rows Numeric (imputer_numeric b)
              (numeric_in_model b T) _ Hw0 Hn0) as [Ht1 [Hf1 Ho1]].
  assert (Himp : trace (impute lib b T) = [] /\
                 fails_only (fun e => exists c, e = KeyError c)
                   (impute lib b T)).
  { unfold impute. fold T.
    destruct (impute_loop Numeric (imputer_numeric b) (numeric_in_model b T)
                (coerce_numeric lib (numeric_in_model b T) T))
      as [l1 [e1 | t1]] eqn:E1.
    - simpl. split; [exact Ht1 | exact Hf1].
    - assert (t1 = coerce_numeric lib (numeric_in_model b T) T)
        by (apply Ho1; reflexivity).
      subst t1. unfold trace in Ht1; simpl in Ht1. subst l1.
      destruct (impute_loop_no_rows Categorical (imputer_categorical b)
                  (categorical_in_model b T) _ Hw0 Hn0) as [Ht2 [Hf2 _]].
      unfold bind.
      destruct (impute_loop Categorical (imputer_categorical b)
                  (categorical_in_model b T)
                  (coerce_numeric lib (numeric_in_model b T) T)) as [l2 r2].
      simpl in *. split; assumption. }
  destruct Himp as [Htr Hfail].
  assert (Hgood : fails_only
            (fun e => match e with
                      | BinLabelError | ImputerError _ => False
                      | _ => True
                      end)
            (predict_on_new_data lib b input output_dir)).
  { unfold predict_on_new_data. apply fails_only_bind.
    - unfold score_table. destruct (missing_cols b input) eqn:Hm;
        [| intros e H; inversion H; exact I].
      fold T. apply fails_only_bind.
      + unfold preprocess. fold T. apply fails_only_bind.
        * intros e H. destruct (Hfail e H) as [c ->]. exact I.
        * intros; apply fails_only_ret.
      + intros t Ht. apply outcome_ok in Ht. destruct Ht as [l Ht].
        apply preprocess_ok in Ht. destruct Ht as [t1 [Hi ->]].
        apply fails_only_bind.
        * unfold predict.
          apply fails_only_bind; [apply fails_only_emit | intros _ _].
          apply fails_only_bind; [apply fails_only_lift; exact I | intros s _].
          apply fails_only_assign. exact I.
        * intros t' Ht'. apply outcome_ok in Ht'. destruct Ht' as [l' Ht'].
          apply predict_ok in Ht'. destruct Ht' as [scores [_ [Hlen [-> _]]]].
          assert (Hz : nrows (after_imputation lib b t1) = 0%nat).
          { unfold after_imputation.
            destruct (shape_ecog lib (apply_mappings (manual_mappings b) t1))
              as [-> _].
            destruct (shape_apply_mappings (manual_mappings b) t1) as [-> _].
            destruct (shape_impute _ _ _ _ _ Hi) as [-> _].
            simpl. exact Hn. }
          rewrite Hz in Hlen. apply length_zero_nil in Hlen. subst scores.
          unfold group, get_column.
          rewrite column_set_same, lift_some, bind_ret_l.
          rewrite nrows_set_column, Hz. simpl map.
          intros e H. discriminate.
    - intros t _. apply fails_only_bind.
      + unfold validate, get_column.
        destruct (has_column t Event && has_column t OS_Time);
          [| apply fails_only_ret].
        repeat (apply fails_only_bind;
                [first [apply fails_only_lift; exact I | apply fails_only_emit]
                | intros ? _]).
        apply fails_only_emit.
      + intros u _. unfold save.
        apply fails_only_bind; [apply fails_only_emit | intros; apply fails_only_ret]. }
  split; [| split; [| split]].
  - intros k col data Hin. apply transform_event_of_run in Hin.
    fold T in Hin. rewrite Htr in Hin. exact Hin.
  - intros H. apply (Hgood _ H).
  - intros col H. apply (Hgood _ H).
  - intros out Hout. apply outcome_ok in Hout. destruct Hout as [l Hrun].
    apply run_ok in Hrun. destruct Hrun as [l1 [l2 [Hs _]]].
    apply score_table_ok in Hs.
    destruct Hs as [_ [l3 [t1 [scores [groups [Hi [_ [Hlen [Hg [-> _]]]]]]]]]].
    assert (Hz : nrows (after_imputation lib b t1) = 0%nat).
    { unfold after_imputation.
      destruct (shape_ecog lib (apply_mappings (manual_mappings b) t1))
        as [-> _].
      destruct (shape_apply_mappings (manual_mappings b) t1) as [-> _].
      destruct (shape_impute _ _ _ _ _ Hi) as [-> _].
      simpl. exact Hn. }
    rewrite Hz in Hlen, Hg. apply length_zero_nil in Hlen. subst scores.
    simpl in Hg. inversion Hg; subst groups.
    split.
    + rewrite column_set_other by discriminate. apply column_set_same.
    + apply column_set_same.
Qed.

Lemma X12_spreadsheet_without_rows_witness :
  exists out,
    outcome (predict_on_new_data Sample.lib Sample.bundle
               Sample.no_patients "out") = inr out
    /\ column out Risk_Score = Some [] /\ column out Risk_Group = Some [].
Proof.
  destruct (outcome (predict_on_new_data Sample.lib Sample.bundle
                       Sample.no_patients "out")) as [e | out] eqn:Hrun;
    [vm_compute in Hrun; discriminate |].
  exists out. split; [reflexivity |].
  assert (Hwf : well_formed Sample.no_patients) by (repeat constructor).
  destruct (X12_spreadsheet_without_rows Sample.lib Sample.bundle
              Sample.no_patients "out" Hwf eq_refl) as [_ [_ [_ H]]].
  apply H. exact Hrun.
Defined.

(** ** The order of the manual mappings *)

Lemma column_apply_mappings_in mappings t col mapping data :
  NoDup (map fst mappings) ->
  In (col, mapping) mappings ->
  column t col = Some data ->
  column (apply_mappings mappings t) col = Some (apply_mapping mapping data).
Proof.
  revert t. induction mappings as [| [c m] rest IH];
    intros t Hnd Hin Hcol; simpl in *.
  - contradiction.
  - inversion Hnd as [| ? ? Hc Hrest]; subst.
    unfold apply_mappings in *. simpl.
    destruct Hin as [Heq | Hin].
    + inversion Heq; subst.
      assert (Hhas : has_column t col = true)
        by (apply has_column_true; eauto).
      rewrite Hhas.
      fold (apply_mappings rest (update_column t col (apply_mapping mapping))).
      rewrite column_apply_mappings_other by exact Hc.
      apply column_update_same. exact Hcol.
    + assert (Hne : col <> c).
      { intros ->. apply Hc. apply in_map_iff. exists (c, mapping). auto. }
      apply IH; auto.
      change c with (fst (c, m)). change m with (snd (c, m)) at 2.
      rewrite mapping_step_other; auto.
Qed.

(** X13. The order in which the bundle lists its manual mappings does not
    matter: two lists with the same entries, each column at most once,
    leave every column of the table with the same cells. *)
Theorem X13_mapping_order_is_irrelevant mappings mappings' t col :
  NoDup (map fst mappings) ->
  Permutation mappings mappings' ->
  column (apply_mappings mappings t) col
  = column (apply_mappings mappings' t) col.
Proof.
  intros Hnd Hperm.
  assert (Hnd' : NoDup (map fst mappings')).
  { eapply Permutation_NoDup; [| exact Hnd]. apply Permutation_map. exact Hperm. }
  destruct (in_dec string_dec col (map fst mappings)) as [Hin | Hnot].
  - apply in_map_iff in Hin. destruct Hin as [[c m] [Hc Hin]].
    simpl in Hc. subst c.
    assert (Hin' : In (col, m) mappings')
      by (eapply Permutation_in; eauto).
    destruct (column t col) as [data |] eqn:Hcol.
    + rewrite (column_apply_mappings_in _ _ _ _ _ Hnd Hin Hcol).
      rewrite (column_apply_mappings_in _ _ _ _ _ Hnd' Hin' Hcol).
      reflexivity.
    + apply has_column_false in Hcol.
      assert (H1 : column (apply_mappings mappings t) col = None).
      { apply has_column_false. rewrite has_column_apply_mappings. exact Hcol. }
      assert (H2 : column (apply_mappings mappings' t) col = None).
      { apply has_column_false. rewrite has_column_apply_mappings. exact Hcol. }
      congruence.
  - rewrite column_apply_mappings_other by exact Hnot.
    rewrite column_apply_mappings_other; auto.
    intros Hin. apply Hnot.
    eapply Permutation_in; [| exact Hin].
    apply Permutation_map. apply Permutation_sym. exact Hperm.
Qed.

Lemma X13_mapping_order_is_irrelevant_witness :
  column (apply_mappings
            [("Stage", [(Str "I", inject_Z 0)]); ("Age", [(Num (inject_Z 50), inject_Z 1)])]
            Sample.patients) "Stage"
  = column (apply_mappings
              [("Age", [(Num (inject_Z 50), inject_Z 1)]); ("Stage", [(Str "I", inject_Z 0)])]
              Sample.patients) "Stage".
Proof.
  apply X13_mapping_order_is_irrelevant.
  - constructor; [simpl; intros [H | []]; discriminate |].
    constructor; [simpl; tauto | constructor].
  - apply perm_swap.
Defined.

(** ** The schema check, end to end (lines 37-46) *)





(** ** Determinism *)







